(** * dqueryinterface.h: capability queries, the object registry and its
      generation-cached interface collections.

    A shallow embedding of [DQueryInterface], [DObjectRegistry] and
    [DObjectRegistry::DInterfaceCollection], followed by the properties of
    the registry and of its views.

    Conventions of the embedding.
    - A pointer is its address, a number, and [nullptr] is address 0.  A
      [std::shared_ptr<DQueryInterface>] is the address it holds: the source
      only ever compares handles ([std::find] uses [operator==], which
      compares the stored pointers) and dereferences them.
    - A [std::type_info] is the name of the type it describes.
    - [unsigned int] is a [Z] kept in [0, 2^32) with the wrap-around of [++]
      written out.
    - A [std::function] is an optional closure: the empty function is [None].
      A closure that a loop calls repeatedly threads a state of the caller's
      choice, which stands for whatever the closure captured.
    - Closures act on their own state only: they do not call back into the
      registry or the view, which the source leaves to the caller.
    - [assert] aborts the call: every operation returns an [option], and
      [None] is the failed assertion.
    - The three mutex members carry no data.  A [std::scoped_lock] is
      lexically scoped, so the mutexes an operation holds at some point are
      the ones of the enclosing [scoped_lock]s; every invocation of the
      caller's closure is reported together with that list. *)

From stdpp Require Import base option list strings relations.
From Stdlib Require Import ZArith Lia.

Local Open Scope Z_scope.

(** ** Pointers and type identifiers *)

Definition pointer := N.
Definition nullptr : pointer := 0%N.
Definition type_info := string.

(** Conversion of a pointer to [bool], as in [if (p)] and [return (p = q)]. *)
Definition to_bool (p : pointer) : bool := negb (p =? nullptr)%N.

(** ** struct DQueryInterface *)

Module DQueryInterface.

Inductive EPredicateResult : Set := Ok | CancellationRequested.

Definition EPredicateResult_eqb (a b : EPredicateResult) : bool :=
  match a, b with
  | Ok, Ok | CancellationRequested, CancellationRequested => true
  | _, _ => false
  end.

(** An object is what its one pure virtual function answers. *)
Record t : Type := Build { QueryInterfaceByTypeId : type_info → pointer }.

Section Access.
Variable self : t.

(** Template access: [T] is given by [typeid(T)]; [reinterpret_cast] and
    [const_cast] keep the address. *)
Definition QueryInterface_T (T : type_info) : pointer :=
  QueryInterfaceByTypeId self T.
Definition QueryInterface_T_mutable (T : type_info) : pointer :=
  QueryInterface_T T.
Definition HasInterface_T (T : type_info) : bool :=
  negb (QueryInterface_T T =? nullptr)%N.

(** COM-like access: the result is the value of the assignment converted
    to [bool], paired with what [*out_interface] holds afterwards. *)
Definition QueryInterface_out (in_typeId : type_info) (out_interface : pointer)
  : bool * pointer :=
  let out_interface := QueryInterfaceByTypeId self in_typeId in
  (to_bool out_interface, out_interface).
Definition QueryInterface_out_mutable (in_typeId : type_info) (out_interface : pointer)
  : bool * pointer :=
  let out_interface := QueryInterfaceByTypeId self in_typeId in
  (to_bool out_interface, out_interface).

(** Runtime access. *)
Definition QueryInterface (in_typeId : type_info) : pointer :=
  QueryInterfaceByTypeId self in_typeId.
Definition QueryInterface_mutable (in_typeId : type_info) : pointer :=
  QueryInterfaceByTypeId self in_typeId.
Definition HasInterface (in_typeId : type_info) : bool :=
  negb (QueryInterfaceByTypeId self in_typeId =? nullptr)%N.
End Access.

End DQueryInterface.

Import DQueryInterface.

(** ** Handles, closures, locks *)

Definition shared_ptr := pointer.

(** [std::function<EPredicateResult (const std::shared_ptr<DQueryInterface>&)>]
    with captured state [S]. *)
Definition function (S : Type) : Type :=
  option (shared_ptr → S → EPredicateResult * S).


(** [std::function<EPredicateResult (std::shared_ptr<DQueryInterface>&)>]: the
    argument is a mutable reference, so the closure also yields the handle it
    leaves in it. *)
Definition removal_function : Type :=
  option (shared_ptr → EPredicateResult * shared_ptr).

Inductive mutex : Set :=
| m_objectsLock | m_objectsToAddLock | m_objectsToRemoveLock | collection_objectsLock.

(** One invocation of the caller's closure: the mutexes the operation held
    around it, the argument, the answer. *)
Record call : Type := Call {
  held : list mutex;
  arg : pointer;
  res : EPredicateResult
}.

Definition scoped_lock {A : Type} (m : mutex) (held : list mutex)
    (body : list mutex → A) : A :=
  body (m :: held).

(** ** std::vector and std::find *)

Section Vector.
Context {A : Type} `{EqDecision A}.

(** Index of the first element equal to [x]; [None] is [end()]. *)
Definition find (l : list A) (x : A) : option nat :=
  fst <$> list_find (λ y, y = x) l.

Definition push_back (l : list A) (x : A) : list A := l ++ [x].
Definition back (l : list A) (d : A) : A := default d (last l).
Definition pop_back (l : list A) : list A := take (pred (length l)) l.

(** How many slots of [l] hold [x]. *)
Definition occurrences (x : A) (l : list A) : nat :=
  length (filter (λ y, y = x) l).
End Vector.

(** The range-for with [break] that ends every enumeration. *)
Fixpoint for_each {S : Type} (held : list mutex)
    (in_predicateFn : shared_ptr → S → EPredicateResult * S)
    (objects : list shared_ptr) (s : S) : S * list call :=
  match objects with
  | [] => (s, [])
  | it :: rest =>
      let '(r, s1) := in_predicateFn it s in
      let c := Call held it r in
      match r with
      | CancellationRequested => (s1, [c])
      | Ok => let '(s2, cs) := for_each held in_predicateFn rest s1 in (s2, c :: cs)
      end
  end.

(** ** unsigned int *)

Definition UINT_MAX : Z := 4294967295.
Definition incr (n : Z) : Z := (n + 1) mod (UINT_MAX + 1).

(** ** struct DObjectRegistry *)

Module DObjectRegistry.

Record t : Type := Build {
  m_objects : list shared_ptr;
  m_objectsToAdd : list shared_ptr;
  m_objectsToRemove : list shared_ptr;
  m_generationId : Z
}.

(** [DObjectRegistry() = default]. *)
Definition init : t := Build [] [] [] 0.

Definition GetGenerationId (self : t) : Z := m_generationId self.

Definition RequestAddObject (in_object : shared_ptr) (self : t) : option t :=
  guard (to_bool in_object = true);;
  scoped_lock m_objectsToAddLock [] (λ _,
    Some (Build (m_objects self)
                (push_back (m_objectsToAdd self) in_object)
                (m_objectsToRemove self)
                (m_generationId self))).

Definition RequestRemoveObject (in_object : shared_ptr)
    (in_optProcessRemovalPredicateFn : removal_function) (self : t)
  : option (t * list call) :=
  guard (to_bool in_object = true);;
  let enqueue (in_object : shared_ptr) (calls : list call) :=
    scoped_lock m_objectsToRemoveLock [] (λ _,
      Some (Build (m_objects self)
                  (m_objectsToAdd self)
                  (push_back (m_objectsToRemove self) in_object)
                  (m_generationId self), calls)) in
  match in_optProcessRemovalPredicateFn with
  | Some fn =>
      let '(r, in_object') := fn in_object in
      let calls := [Call [] in_object r] in
      if EPredicateResult_eqb r CancellationRequested
      then Some (self, calls)
      else enqueue in_object' calls
  | None => enqueue in_object []
  end.

(** Pending additions: append what [std::find] does not find.  The
    [std::move] empties a slot of the queue that is not read again before
    the queue is cleared. *)
Fixpoint process_additions (pending objects : list shared_ptr) (changed : bool)
  : list shared_ptr * bool :=
  match pending with
  | [] => (objects, changed)
  | it :: rest =>
      match find objects it with
      | None => process_additions rest (push_back objects it) true
      | Some _ => process_additions rest objects changed
      end
  end.

(** Pending removals: overwrite the found slot with the last element and
    drop the last slot. *)
Fixpoint process_removals (pending objects : list shared_ptr) (changed : bool)
  : list shared_ptr * bool :=
  match pending with
  | [] => (objects, changed)
  | it :: rest =>
      match find objects it with
      | Some foundObject =>
          process_removals rest
            (pop_back (<[foundObject := back objects it]> objects)) true
      | None => process_removals rest objects changed
      end
  end.

(** The two loops, each under the lock of its queue, and the flag they
    leave. *)
Definition process_pending (held : list mutex) (self : t) : list shared_ptr * bool :=
  let changed := false in
  let '(objects, changed) :=
    scoped_lock m_objectsToAddLock held (λ _,
      process_additions (m_objectsToAdd self) (m_objects self) changed) in
  scoped_lock m_objectsToRemoveLock held (λ _,
    process_removals (m_objectsToRemove self) objects changed).

(** The block guarded by [if (m_objectsToAdd.size() || m_objectsToRemove.size())];
    both queues are cleared in it. *)
Definition drain (held : list mutex) (self : t) : t :=
  if negb (length (m_objectsToAdd self) =? 0)%nat
     || negb (length (m_objectsToRemove self) =? 0)%nat
  then
    let '(objects, changed) := process_pending held self in
    Build objects [] []
          (if changed then incr (m_generationId self) else m_generationId self)
  else self.

Definition ForEach {S : Type} (in_predicateFn : function S) (self : t) (s : S)
  : option (t * S * list call) :=
  fn ← in_predicateFn;
  scoped_lock m_objectsLock [] (λ held,
    let self := drain held self in
    let '(s, calls) := for_each held fn (m_objects self) s in
    Some (self, s, calls)).

(** One operation on the registry, and the states a registry goes through
    from its construction. *)
Inductive step (self self' : t) : Prop :=
| step_RequestAddObject in_object :
    RequestAddObject in_object self = Some self' →
    step self self'
| step_RequestRemoveObject in_object fn calls :
    RequestRemoveObject in_object fn self = Some (self', calls) →
    step self self'
| step_ForEach (S : Type) (fn : function S) s s' calls :
    ForEach fn self s = Some (self', s', calls) →
    step self self'.

Definition reachable (self : t) : Prop := rtc step init self.

End DObjectRegistry.

(** ** struct DObjectRegistry::DInterfaceCollection<TINTERFACE> *)

Module DInterfaceCollection.

Record t : Type := Build {
  TINTERFACE : type_info;
  m_objects : list shared_ptr;
  m_generationId : Z
}.

(** [CreateInterfaceCollection<TINTERFACE>()], that is the private
    constructor: an empty cache and the initial generation. *)
Definition CreateInterfaceCollection (T : type_info) (m_registry : DObjectRegistry.t) : t :=
  Build T [] UINT_MAX.

Definition GetGenerationId (self : t) : Z := m_generationId self.

Section Objects.
(** What a non-empty handle points to. *)
Variable deref : shared_ptr → DQueryInterface.t.

(** The closure handed to the registry while rebuilding; it captures
    [this]. *)
Definition collect (in_object : shared_ptr) (self : t) : EPredicateResult * t :=
  (Ok,
   if HasInterface_T (deref in_object) (TINTERFACE self)
   then Build (TINTERFACE self) (push_back (m_objects self) in_object) (m_generationId self)
   else self).

Definition rebuild (self : t) (m_registry : DObjectRegistry.t)
  : option (t * DObjectRegistry.t) :=
  if bool_decide (m_generationId self ≠ DObjectRegistry.GetGenerationId m_registry)
  then
    let self := Build (TINTERFACE self) [] (m_generationId self) in
    '(m_registry, self, _) ← DObjectRegistry.ForEach (Some collect) m_registry self;
    Some (Build (TINTERFACE self) (m_objects self)
                (DObjectRegistry.GetGenerationId m_registry), m_registry)
  else Some (self, m_registry).

Definition ForEach {S : Type} (in_predicateFn : function S)
    (self : t) (m_registry : DObjectRegistry.t) (s : S)
  : option (t * DObjectRegistry.t * S * list call) :=
  fn ← in_predicateFn;
  scoped_lock collection_objectsLock [] (λ held,
    '(self, m_registry) ← rebuild self m_registry;
    let '(s, calls) := for_each held fn (m_objects self) s in
    Some (self, m_registry, s, calls)).

End Objects.

End DInterfaceCollection.

(** ** examples/win32_console_example.cpp *)

Module Example.

Definition DFooInterface : type_info := "DFooInterface".
Definition DBarInterface : type_info := "DBarInterface".
Definition DBazInterface : type_info := "DBazInterface".

(** [static_cast] to a base class adds the offset of the base subobject,
    here one pointer per preceding polymorphic base. *)
Definition DExampleClass (this : pointer) : DQueryInterface.t :=
  DQueryInterface.Build (λ in_typeId,
    if String.eqb DBarInterface in_typeId then (this + 8)%N
    else if String.eqb DBazInterface in_typeId then (this + 16)%N
    else nullptr).

Definition DOtherExampleClass (this : pointer) : DQueryInterface.t :=
  DQueryInterface.Build (λ in_typeId,
    if String.eqb DFooInterface in_typeId then (this + 8)%N
    else if String.eqb DBarInterface in_typeId then (this + 16)%N
    else if String.eqb DBazInterface in_typeId then (this + 24)%N
    else nullptr).

(** The four objects of [main]. *)
Definition obj1 : shared_ptr := 4096%N.
Definition obj2 : shared_ptr := 4128%N.
Definition obj3 : shared_ptr := 4160%N.
Definition obj4 : shared_ptr := 4192%N.

Definition deref (p : shared_ptr) : DQueryInterface.t :=
  if (p =? obj3)%N || (p =? obj4)%N then DOtherExampleClass p else DExampleClass p.

(** A closure that records what it is given and never cancels, and one
    that cancels at [stop]. *)
Definition record (it : pointer) (seen : list pointer) : EPredicateResult * list pointer :=
  (Ok, push_back seen it).
Definition record_until (stop : pointer) (it : pointer) (seen : list pointer)
  : EPredicateResult * list pointer :=
  (if (it =? stop)%N then CancellationRequested else Ok, push_back seen it).

End Example.

(** ** Notions used by the statements *)


(** The reported calls went through [objects] in order, and through all of
    it unless the last call asked to stop. *)
Definition enumerates (calls : list call) (objects : list pointer) : Prop :=
  arg <$> calls `prefix_of` objects ∧
  (arg <$> calls = objects ∨
   ∃ c, last calls = Some c ∧ res c = CancellationRequested).

(** The objects of [objects] for which [HasInterface<T>()] holds. *)
Definition implementing (deref : shared_ptr → DQueryInterface.t) (T : type_info)
    (objects : list shared_ptr) : list shared_ptr :=
  filter (λ o, HasInterface_T (deref o) T = true) objects.

(** What holds of every registry between two operations. *)
Record invariant (self : DObjectRegistry.t) : Prop := Invariant {
  invariant_NoDup : NoDup (DObjectRegistry.m_objects self);
  invariant_objects : nullptr ∉ DObjectRegistry.m_objects self;
  invariant_objectsToAdd : nullptr ∉ DObjectRegistry.m_objectsToAdd self;
  invariant_generationId : 0 ≤ DObjectRegistry.m_generationId self ≤ UINT_MAX
}.

(** The pending requests of [self] ask for a change of the materialized
    set: an addition of an object that is not in it, or a removal of an
    object that is in it or is about to be added. *)
Definition structural_change (self : DObjectRegistry.t) : Prop :=
  (∃ o, o ∈ DObjectRegistry.m_objectsToAdd self ∧ o ∉ DObjectRegistry.m_objects self) ∨
  (∃ o, o ∈ DObjectRegistry.m_objectsToRemove self ∧
        (o ∈ DObjectRegistry.m_objects self ∨ o ∈ DObjectRegistry.m_objectsToAdd self)).

(** One of the two operations that only queue a request. *)
Inductive request (self self' : DObjectRegistry.t) : Prop :=
| request_RequestAddObject in_object :
    DObjectRegistry.RequestAddObject in_object self = Some self' →
    request self self'
| request_RequestRemoveObject in_object fn calls :
    DObjectRegistry.RequestRemoveObject in_object fn self = Some (self', calls) →
    request self self'.

(** [RequestAddObject] for each handle of a list, in the order of the list,
    as [main] does for its four objects. *)
Fixpoint RequestAddObjects (objects : list shared_ptr) (self : DObjectRegistry.t)
  : option DObjectRegistry.t :=
  match objects with
  | [] => Some self
  | in_object :: rest =>
      self' ← DObjectRegistry.RequestAddObject in_object self;
      RequestAddObjects rest self'
  end.

(** The view has the generation of the registry and caches what its
    interface selects from the materialized set. *)
Definition in_sync (deref : shared_ptr → DQueryInterface.t)
    (view : DInterfaceCollection.t) (self : DObjectRegistry.t) : Prop :=
  DInterfaceCollection.m_generationId view = DObjectRegistry.GetGenerationId self ∧
  DInterfaceCollection.m_objects view
    = implementing deref (DInterfaceCollection.TINTERFACE view)
        (DObjectRegistry.m_objects self).

(** [changes self k self']: some operations lead from [self] to [self'], and
    [k] of them changed the generation. *)
Inductive changes : DObjectRegistry.t → Z → DObjectRegistry.t → Prop :=
| changes_none self : changes self 0 self
| changes_same self k self1 self2 :
    changes self k self1 →
    DObjectRegistry.step self1 self2 →
    DObjectRegistry.m_generationId self2 = DObjectRegistry.m_generationId self1 →
    changes self k self2
| changes_bump self k self1 self2 :
    changes self k self1 →
    DObjectRegistry.step self1 self2 →
    DObjectRegistry.m_generationId self2 ≠ DObjectRegistry.m_generationId self1 →
    changes self (k + 1) self2.

(** * Properties *)

(** ** Vectors *)

Section VectorFacts.
Context {A : Type} `{EqDecision A}.
Implicit Types (l : list A) (x y d : A).

Lemma find_None l x : find l x = None ↔ x ∉ l.
Proof.
  unfold find. rewrite fmap_None, list_find_None, Forall_forall.
  split; [intros H Hx; exact (H x Hx eq_refl) | intros H y Hy ->; auto].
Qed.

Lemma find_Some l x i : find l x = Some i → l !! i = Some x.
Proof.
  unfold find. rewrite fmap_Some. intros [[j y] [Hf ->]].
  apply list_find_Some in Hf as (Hl & -> & _). exact Hl.
Qed.

Lemma find_is_Some l x : x ∈ l → ∃ i, find l x = Some i.
Proof.
  intros Hx. destruct (find l x) as [i|] eqn:E; [eauto|].
  apply find_None in E. contradiction.
Qed.

Lemma occurrences_nil x : occurrences x [] = 0%nat.
Proof. reflexivity. Qed.

Lemma occurrences_cons x y l :
  occurrences x (y :: l) = ((if decide (y = x) then 1 else 0) + occurrences x l)%nat.
Proof.
  unfold occurrences. rewrite filter_cons. destruct (decide (y = x)); reflexivity.
Qed.

Lemma occurrences_app x l1 l2 :
  occurrences x (l1 ++ l2) = (occurrences x l1 + occurrences x l2)%nat.
Proof. unfold occurrences. rewrite filter_app, length_app. reflexivity. Qed.

Lemma occurrences_Permutation x l1 l2 :
  l1 ≡ₚ l2 → occurrences x l1 = occurrences x l2.
Proof. intros H. unfold occurrences. rewrite H. reflexivity. Qed.

Lemma occurrences_zero x l : occurrences x l = 0%nat ↔ x ∉ l.
Proof.
  induction l as [|y l IH]; [rewrite occurrences_nil; split; [intros _; apply not_elem_of_nil | done]|].
  rewrite occurrences_cons, not_elem_of_cons.
  destruct (decide (y = x)) as [->|Hne].
  - split; [lia | intros [? _]; congruence].
  - rewrite Nat.add_0_l, IH. split; [auto | tauto].
Qed.

Lemma occurrences_pos x l : (0 < occurrences x l)%nat ↔ x ∈ l.
Proof.
  destruct (decide (x ∈ l)) as [Hx|Hx].
  - split; [done|]. intros _.
    destruct (occurrences x l) eqn:E; [apply occurrences_zero in E; contradiction | lia].
  - apply occurrences_zero in Hx as E. rewrite E. split; [lia | contradiction].
Qed.

Lemma occurrences_NoDup x l : NoDup l → (occurrences x l ≤ 1)%nat.
Proof.
  induction 1 as [|y l Hy _ IH]; [rewrite occurrences_nil; lia|].
  rewrite occurrences_cons. destruct (decide (y = x)) as [->|]; [|lia].
  apply occurrences_zero in Hy. lia.
Qed.

(** Overwriting slot [i] with the last element and dropping the last slot
    removes exactly the element of slot [i]. *)
Lemma swap_remove_Permutation l i x d :
  l !! i = Some x → l ≡ₚ x :: pop_back (<[i := back l d]> l).
Proof.
  intros Hi.
  destruct (list_elem_of_split_length l i x Hi) as (l1 & l2 & -> & ->).
  unfold back, pop_back. rewrite length_insert.
  destruct l2 as [|y l2 _] using rev_ind.
  - rewrite last_snoc. simpl.
    rewrite list_insert_id by (apply list_lookup_middle; reflexivity).
    rewrite length_app. simpl. rewrite Nat.add_1_r. simpl.
    rewrite take_app_length. symmetry. apply Permutation_cons_append.
  - replace (l1 ++ x :: l2 ++ [y]) with ((l1 ++ x :: l2) ++ [y])
      by (rewrite <- app_assoc; reflexivity).
    rewrite last_snoc. simpl.
    rewrite length_app. simpl. rewrite Nat.add_1_r. simpl.
    rewrite <- app_assoc. simpl.
    rewrite insert_app_r_alt, Nat.sub_diag by lia. simpl.
    replace (l1 ++ y :: l2 ++ [y]) with ((l1 ++ y :: l2) ++ [y])
      by (rewrite <- app_assoc; reflexivity).
    replace (length (l1 ++ x :: l2)) with (length (l1 ++ y :: l2))
      by (rewrite !length_app; reflexivity).
    rewrite take_app_length.
    rewrite <- !Permutation_middle. apply Permutation_skip.
    rewrite Permutation_app_comm. simpl.
    apply Permutation_skip. rewrite app_nil_r. apply Permutation_app_comm.
Qed.
End VectorFacts.

(** ** The two loops of a drain *)

Section Drain.
Import DObjectRegistry.
Implicit Types (pending objects : list shared_ptr) (changed : bool) (o it : shared_ptr).

Lemma find_elem_of objects it i : find objects it = Some i → it ∈ objects.
Proof. intros H. apply find_Some in H. eapply list_elem_of_lookup_2, H. Qed.

Lemma process_additions_elem pending objects changed o :
  o ∈ (process_additions pending objects changed).1 ↔ o ∈ objects ∨ o ∈ pending.
Proof.
  revert objects changed.
  induction pending as [|it rest IH]; intros objects changed; simpl.
  - rewrite elem_of_nil. tauto.
  - destruct (find objects it) as [i|] eqn:E; rewrite IH, elem_of_cons.
    + apply find_elem_of in E. split; [tauto | intros [?|[->|?]]; auto].
    + unfold push_back. rewrite elem_of_app, list_elem_of_singleton. tauto.
Qed.

Lemma process_additions_occurrences pending objects changed o :
  occurrences o (process_additions pending objects changed).1 =
  if decide (o ∈ objects) then occurrences o objects
  else if decide (o ∈ pending) then 1%nat else 0%nat.
Proof.
  revert objects changed.
  induction pending as [|it rest IH]; intros objects changed; simpl.
  - destruct (decide (o ∈ objects)) as [|Ho]; [reflexivity|].
    by apply occurrences_zero.
  - destruct (find objects it) as [i|] eqn:E; rewrite IH.
    + apply find_elem_of in E.
      destruct (decide (o ∈ objects)) as [|Ho]; [reflexivity|].
      assert (o ≠ it) by congruence.
      destruct (decide (o ∈ rest)).
      * rewrite decide_True by (apply elem_of_cons; auto). reflexivity.
      * rewrite decide_False by (rewrite elem_of_cons; tauto). reflexivity.
    + apply find_None in E. unfold push_back.
      rewrite occurrences_app, occurrences_cons, occurrences_nil.
      destruct (decide (o ∈ objects)) as [Ho|Ho].
      * rewrite decide_True by (apply elem_of_app; auto).
        rewrite decide_False by congruence. lia.
      * destruct (decide (it = o)) as [->|Hne].
        -- rewrite decide_True by (apply elem_of_app; right; apply elem_of_cons; auto).
           rewrite decide_True by (apply elem_of_cons; auto).
           apply occurrences_zero in Ho. lia.
        -- rewrite decide_False
             by (rewrite elem_of_app, list_elem_of_singleton; intros [?|?]; congruence).
           destruct (decide (o ∈ rest)).
           ++ rewrite decide_True by (apply elem_of_cons; auto). reflexivity.
           ++ rewrite decide_False by (rewrite elem_of_cons; intros [?|?]; congruence).
              reflexivity.
Qed.

Lemma process_additions_NoDup pending objects changed :
  NoDup objects → NoDup (process_additions pending objects changed).1.
Proof.
  revert objects changed.
  induction pending as [|it rest IH]; intros objects changed Hnd; simpl; [done|].
  destruct (find objects it) as [i|] eqn:E; apply IH; [done|].
  apply find_None in E. unfold push_back. apply NoDup_app.
  split_and!; [done | | apply NoDup_singleton].
  intros x Hx ->%list_elem_of_singleton. contradiction.
Qed.

Lemma process_additions_changed pending objects changed :
  (process_additions pending objects changed).2 = true ↔
  changed = true ∨ ∃ o, o ∈ pending ∧ o ∉ objects.
Proof.
  revert objects changed.
  induction pending as [|it rest IH]; intros objects changed; simpl.
  - split; [auto | intros [?|(o & []%elem_of_nil & _)]; done].
  - destruct (find objects it) as [i|] eqn:E; rewrite IH.
    + apply find_elem_of in E. split.
      * intros [?|(o & ? & ?)]; [auto | right; exists o; rewrite elem_of_cons; auto].
      * intros [?|(o & [->|?]%elem_of_cons & ?)]; [auto | done | eauto].
    + apply find_None in E. split; [|auto].
      intros _. right. exists it. split; [apply elem_of_cons; auto | done].
Qed.

Lemma process_additions_unchanged pending objects changed :
  (process_additions pending objects changed).2 = false →
  (process_additions pending objects changed).1 = objects ∧ changed = false.
Proof.
  revert objects changed.
  induction pending as [|it rest IH]; intros objects changed; simpl; [done|].
  destruct (find objects it) as [i|]; intros H; [by apply IH|].
  apply IH in H as [_ ?]. done.
Qed.

(** One removal. *)
Lemma removal_Permutation objects it foundObject :
  find objects it = Some foundObject →
  objects ≡ₚ it :: pop_back (<[foundObject := back objects it]> objects).
Proof. intros H. by apply swap_remove_Permutation, find_Some. Qed.

Lemma process_removals_occurrences_le pending objects changed o :
  (occurrences o (process_removals pending objects changed).1 ≤ occurrences o objects)%nat.
Proof.
  revert objects changed.
  induction pending as [|it rest IH]; intros objects changed; simpl; [done|].
  destruct (find objects it) as [i|] eqn:E; [|apply IH].
  etrans; [apply IH|].
  rewrite (occurrences_Permutation o _ _ (removal_Permutation _ _ _ E)).
  rewrite occurrences_cons. lia.
Qed.

Lemma process_removals_occurrences_other pending objects changed o :
  o ∉ pending →
  occurrences o (process_removals pending objects changed).1 = occurrences o objects.
Proof.
  revert objects changed.
  induction pending as [|it rest IH]; intros objects changed Ho; simpl; [done|].
  apply not_elem_of_cons in Ho as [Hne Ho].
  destruct (find objects it) as [i|] eqn:E; rewrite IH by done; [|done].
  rewrite (occurrences_Permutation o _ _ (removal_Permutation _ _ _ E)).
  rewrite occurrences_cons, decide_False by congruence. done.
Qed.

Lemma process_removals_occurrences_gone pending objects changed o :
  o ∈ pending → (occurrences o objects ≤ 1)%nat →
  occurrences o (process_removals pending objects changed).1 = 0%nat.
Proof.
  revert objects changed.
  induction pending as [|it rest IH]; intros objects changed Ho Hle; simpl.
  - by apply elem_of_nil in Ho.
  - destruct (find objects it) as [i|] eqn:E.
    + pose proof (occurrences_Permutation o _ _ (removal_Permutation _ _ _ E)) as Hp.
      rewrite occurrences_cons in Hp.
      match goal with |- occurrences o (process_removals rest ?l ?c).1 = _ =>
        pose proof (process_removals_occurrences_le rest l c o) as Hm end.
      apply elem_of_cons in Ho as [->|Ho].
      * rewrite decide_True in Hp by done. lia.
      * apply IH; [done|]. lia.
    + apply elem_of_cons in Ho as [->|Ho]; [|by apply IH].
      apply find_None, occurrences_zero in E.
      pose proof (process_removals_occurrences_le rest objects changed it). lia.
Qed.

Lemma process_removals_elem pending objects changed o :
  o ∈ (process_removals pending objects changed).1 → o ∈ objects.
Proof.
  rewrite <- !occurrences_pos.
  pose proof (process_removals_occurrences_le pending objects changed o). lia.
Qed.

Lemma process_removals_NoDup pending objects changed :
  NoDup objects → NoDup (process_removals pending objects changed).1.
Proof.
  revert objects changed.
  induction pending as [|it rest IH]; intros objects changed Hnd; simpl; [done|].
  destruct (find objects it) as [i|] eqn:E; apply IH; [|done].
  rewrite (removal_Permutation _ _ _ E) in Hnd. by apply NoDup_cons in Hnd as [_ ?].
Qed.

Lemma process_removals_changed pending objects changed :
  (process_removals pending objects changed).2 = true ↔
  changed = true ∨ ∃ o, o ∈ pending ∧ o ∈ objects.
Proof.
  revert objects changed.
  induction pending as [|it rest IH]; intros objects changed; simpl.
  - split; [auto | intros [?|(o & []%elem_of_nil & _)]; done].
  - destruct (find objects it) as [i|] eqn:E; rewrite IH.
    + apply find_elem_of in E. split; [|auto].
      intros _. right. exists it. split; [apply elem_of_cons; auto | done].
    + apply find_None in E. split.
      * intros [?|(o & ? & ?)]; [auto | right; exists o; rewrite elem_of_cons; auto].
      * intros [?|(o & [->|?]%elem_of_cons & ?)]; [auto | done | eauto].
Qed.

Lemma process_removals_unchanged pending objects changed :
  (process_removals pending objects changed).2 = false →
  (process_removals pending objects changed).1 = objects ∧ changed = false.
Proof.
  revert objects changed.
  induction pending as [|it rest IH]; intros objects changed; simpl; [done|].
  destruct (find objects it) as [i|]; intros H; [|by apply IH].
  apply IH in H as [_ ?]. done.
Qed.
End Drain.

(** ** Enumerations *)

Section ForEachLoop.
Context {S : Type}.
Implicit Types (fn : shared_ptr → S → EPredicateResult * S) (s : S).

Lemma for_each_args_prefix h fn objects s :
  arg <$> (for_each h fn objects s).2 `prefix_of` objects.
Proof.
  revert s. induction objects as [|it rest IH]; intros s; simpl; [done|].
  destruct (fn it s) as [[] s1]; simpl.
  - specialize (IH s1). destruct (for_each h fn rest s1) as [s2 cs]; simpl in *.
    by apply prefix_cons.
  - apply (prefix_cons it [] rest), prefix_nil.
Qed.


Lemma for_each_enumerates h fn objects s :
  enumerates (for_each h fn objects s).2 objects.
Proof.
  split; [apply for_each_args_prefix|].
  revert s. induction objects as [|it rest IH]; intros s; simpl; [by left|].
  destruct (fn it s) as [[] s1] eqn:E; simpl.
  - specialize (IH s1). destruct (for_each h fn rest s1) as [s2 cs]; simpl in *.
    destruct IH as [Heq|(c & Hl & Hc)]; [left; by f_equal|].
    right. exists c. split; [|done].
    destruct cs; [done|]. by rewrite last_cons, Hl.
  - right. eexists. split; [reflexivity|done].
Qed.

Lemma for_each_held h fn objects s :
  Forall (λ c, held c = h) (for_each h fn objects s).2.
Proof.
  revert s. induction objects as [|it rest IH]; intros s; simpl; [done|].
  destruct (fn it s) as [[] s1]; simpl.
  - specialize (IH s1). destruct (for_each h fn rest s1) as [s2 cs]; simpl in *.
    by constructor.
  - by repeat constructor.
Qed.
End ForEachLoop.

(** ** The registry *)

Section Registry.
Import DObjectRegistry.
Implicit Types (self : t) (h : list mutex).

Lemma drain_held h1 h2 self : drain h1 self = drain h2 self.
Proof. reflexivity. Qed.

Lemma drain_queues h self :
  m_objectsToAdd (drain h self) = [] ∧ m_objectsToRemove (drain h self) = [].
Proof.
  unfold drain.
  destruct (m_objectsToAdd self) as [|a qa] eqn:Ea;
    destruct (m_objectsToRemove self) as [|b qb] eqn:Eb; simpl; auto;
    destruct (process_pending h self); simpl; auto.
Qed.

Lemma drain_nothing_pending h self :
  m_objectsToAdd self = [] → m_objectsToRemove self = [] → drain h self = self.
Proof. intros Ha Hr. unfold drain. rewrite Ha, Hr. reflexivity. Qed.

Lemma drain_drain h1 h2 self : drain h1 (drain h2 self) = drain h2 self.
Proof. apply drain_nothing_pending; apply drain_queues. Qed.

(** The drained registry in terms of the two loops. *)
Lemma drain_eq h self :
  drain h self =
  let a := process_additions (m_objectsToAdd self) (m_objects self) false in
  let r := process_removals (m_objectsToRemove self) a.1 a.2 in
  Build r.1 [] [] (if r.2 then incr (m_generationId self) else m_generationId self).
Proof.
  unfold drain, process_pending, scoped_lock. cbv zeta.
  destruct (negb _ || negb _) eqn:Eq.
  - destruct (process_additions _ _ _) as [objects changed]. cbn [fst snd].
    by destruct (process_removals _ _ _).
  - apply orb_false_iff in Eq as [Ea%negb_false_iff%Nat.eqb_eq Er%negb_false_iff%Nat.eqb_eq].
    apply nil_length_inv in Ea, Er. destruct self; simpl in *; by subst.
Qed.

Lemma ForEach_eq {S : Type} (fn : shared_ptr → S → EPredicateResult * S) self s :
  ForEach (Some fn) self s =
  Some (drain [m_objectsLock] self,
        (for_each [m_objectsLock] fn (m_objects (drain [m_objectsLock] self)) s).1,
        (for_each [m_objectsLock] fn (m_objects (drain [m_objectsLock] self)) s).2).
Proof.
  unfold ForEach, scoped_lock. simpl. by destruct (for_each _ _ _ _).
Qed.

Lemma ForEach_Some {S : Type} (in_predicateFn : function S) self s self' s' calls :
  ForEach in_predicateFn self s = Some (self', s', calls) →
  ∃ fn, in_predicateFn = Some fn ∧ self' = drain [m_objectsLock] self ∧
        (s', calls) = for_each [m_objectsLock] fn (m_objects self') s.
Proof.
  destruct in_predicateFn as [fn|]; [|done].
  rewrite ForEach_eq. intros [= <- <- <-]. exists fn.
  split_and!; [done..|]. by destruct (for_each _ _ _ _).
Qed.

Lemma RequestAddObject_Some in_object self self' :
  RequestAddObject in_object self = Some self' ↔
  in_object ≠ nullptr ∧
  self' = Build (m_objects self) (m_objectsToAdd self ++ [in_object])
                (m_objectsToRemove self) (m_generationId self).
Proof.
  unfold RequestAddObject, scoped_lock, push_back, to_bool.
  destruct (N.eqb_spec in_object nullptr) as [->|Hne]; simpl.
  - split; [done | intros [[] _]; done].
  - split; [intros [= <-]; done | intros [_ ->]; done].
Qed.

Lemma RequestRemoveObject_Some in_object fn self self' calls :
  RequestRemoveObject in_object fn self = Some (self', calls) →
  m_objects self' = m_objects self ∧ m_objectsToAdd self' = m_objectsToAdd self ∧
  m_generationId self' = m_generationId self.
Proof.
  unfold RequestRemoveObject, scoped_lock, push_back, to_bool.
  destruct (N.eqb_spec in_object nullptr) as [->|Hne]; simpl; [done|].
  destruct fn as [fn|]; [|by intros [= <- <-]].
  destruct (fn in_object) as [[] o']; simpl; by intros [= <- <-].
Qed.

Lemma incr_range n : 0 ≤ incr n ≤ UINT_MAX.
Proof. unfold incr, UINT_MAX. pose proof (Z.mod_pos_bound (n + 1) (4294967295 + 1)). lia. Qed.

Lemma drain_invariant h self : invariant self → invariant (drain h self).
Proof.
  intros [Hnd Hn Ha Hg]. rewrite drain_eq. simpl. split; simpl.
  - by apply process_removals_NoDup, process_additions_NoDup.
  - intros H%process_removals_elem%process_additions_elem. tauto.
  - apply not_elem_of_nil.
  - destruct (process_removals _ _ _).2; [apply incr_range | done].
Qed.

Lemma step_invariant self self' : invariant self → step self self' → invariant self'.
Proof.
  intros Hinv [o H|o fn calls H|S fn s s' calls H].
  - apply RequestAddObject_Some in H as [Hne ->]. destruct Hinv. split; simpl; [done..| |done].
    rewrite not_elem_of_app, list_elem_of_singleton. split; [done | congruence].
  - apply RequestRemoveObject_Some in H as (Ho & Ha & Hg). destruct Hinv.
    split; by rewrite ?Ho, ?Ha, ?Hg.
  - apply ForEach_Some in H as (f & _ & -> & _). by apply drain_invariant.
Qed.

Lemma init_invariant : invariant init.
Proof. split; simpl; [constructor | apply not_elem_of_nil.. | unfold UINT_MAX; lia]. Qed.

Lemma reachable_invariant self : reachable self → invariant self.
Proof.
  unfold reachable. intros H.
  refine (rtc_ind_r (λ self, invariant self) init init_invariant _ self H).
  intros self1 self2 _ Hstep IH. by eapply step_invariant.
Qed.

Lemma reachable_step self self' : reachable self → step self self' → reachable self'.
Proof. intros H Hs. eapply rtc_r; eauto. Qed.

Lemma drain_changed h self :
  (process_pending h self).2 = true ↔ structural_change self.
Proof.
  unfold process_pending, scoped_lock, structural_change.
  destruct (process_additions _ _ _) as [objects changed] eqn:E.
  rewrite process_removals_changed.
  assert (changed = (process_additions (m_objectsToAdd self) (m_objects self) false).2)
    as -> by (by rewrite E).
  assert (objects = (process_additions (m_objectsToAdd self) (m_objects self) false).1)
    as -> by (by rewrite E).
  rewrite process_additions_changed.
  setoid_rewrite process_additions_elem. intuition congruence.
Qed.
End Registry.

(** ** Interface collections *)

Section Collection.
Import DObjectRegistry.
Variable deref : shared_ptr → DQueryInterface.t.
Implicit Types (self : DInterfaceCollection.t) (m_registry : DObjectRegistry.t).

Local Abbreviation implementing := (implementing deref).

Lemma for_each_collect h objects self :
  for_each h (DInterfaceCollection.collect deref) objects self =
  (DInterfaceCollection.Build
     (DInterfaceCollection.TINTERFACE self)
     (DInterfaceCollection.m_objects self
        ++ implementing (DInterfaceCollection.TINTERFACE self) objects)
     (DInterfaceCollection.m_generationId self),
   (λ o, Call h o Ok) <$> objects).
Proof.
  revert self. induction objects as [|it rest IH]; intros self; simpl.
  - unfold implementing. rewrite filter_nil, app_nil_r. by destruct self.
  - rewrite IH. unfold implementing. rewrite filter_cons. simpl.
    destruct (HasInterface_T (deref it) _) eqn:E; simpl.
    + unfold push_back. by rewrite <- app_assoc.
    + done.
Qed.

Lemma rebuild_stale self m_registry :
  DInterfaceCollection.m_generationId self ≠ GetGenerationId m_registry →
  DInterfaceCollection.rebuild deref self m_registry =
  Some (DInterfaceCollection.Build
          (DInterfaceCollection.TINTERFACE self)
          (implementing (DInterfaceCollection.TINTERFACE self)
             (m_objects (drain [m_objectsLock] m_registry)))
          (GetGenerationId (drain [m_objectsLock] m_registry)),
        drain [m_objectsLock] m_registry).
Proof.
  intros Hne. unfold DInterfaceCollection.rebuild.
  rewrite bool_decide_eq_true_2 by done.
  rewrite ForEach_eq, for_each_collect. reflexivity.
Qed.

Lemma rebuild_fresh self m_registry :
  DInterfaceCollection.m_generationId self = GetGenerationId m_registry →
  DInterfaceCollection.rebuild deref self m_registry = Some (self, m_registry).
Proof.
  intros Heq. unfold DInterfaceCollection.rebuild.
  rewrite bool_decide_eq_false_2 by (intros H; by apply H). reflexivity.
Qed.


Lemma Collection_ForEach_eq {S : Type} (fn : shared_ptr → S → EPredicateResult * S)
    self m_registry s self' m_registry' :
  DInterfaceCollection.rebuild deref self m_registry = Some (self', m_registry') →
  DInterfaceCollection.ForEach deref (Some fn) self m_registry s =
  Some (self', m_registry',
        (for_each [collection_objectsLock] fn (DInterfaceCollection.m_objects self') s).1,
        (for_each [collection_objectsLock] fn (DInterfaceCollection.m_objects self') s).2).
Proof.
  intros H. unfold DInterfaceCollection.ForEach, scoped_lock. simpl.
  rewrite H. simpl. by destruct (for_each _ _ _ _).
Qed.
End Collection.

(** * The capability query protocol *)

(** C8. The typed, the identifier-based and the boolean-output forms of the
    query resolve through the same virtual function: they find an interface
    for the same objects and identifiers, the boolean-output form stores
    exactly the resolved pointer, and both forms of [HasInterface] answer
    [true] exactly when that pointer is not null.  The non-const overloads
    give the same addresses. *)
Theorem query_conventions_agree (self : DQueryInterface.t) (T : type_info)
    (out_interface : pointer) :
  let resolved := QueryInterfaceByTypeId self T in
  (QueryInterface_T self T ≠ nullptr ↔ QueryInterface self T ≠ nullptr) ∧
  (QueryInterface self T ≠ nullptr ↔ (QueryInterface_out self T out_interface).1 = true) ∧
  (QueryInterface_out self T out_interface).2 = resolved ∧
  (HasInterface_T self T = true ↔ resolved ≠ nullptr) ∧
  (HasInterface self T = true ↔ resolved ≠ nullptr) ∧
  QueryInterface_T self T = resolved ∧
  QueryInterface self T = resolved ∧
  QueryInterface_T_mutable self T = resolved ∧
  QueryInterface_mutable self T = resolved ∧
  QueryInterface_out_mutable self T out_interface = QueryInterface_out self T out_interface.
Proof.
  intros resolved.
  unfold QueryInterface_T_mutable, QueryInterface_T, QueryInterface, QueryInterface_mutable,
    QueryInterface_out_mutable, QueryInterface_out, HasInterface_T, HasInterface,
    QueryInterface_T, to_bool.
  fold resolved. simpl.
  assert (negb (resolved =? nullptr)%N = true ↔ resolved ≠ nullptr) as Hb.
  { rewrite negb_true_iff, N.eqb_neq. done. }
  split_and!; try done; by rewrite Hb.
Qed.

(** * The registry *)

Section RegistryTheorems.
Import DObjectRegistry.

(** C9. For a non-empty handle, [RequestAddObject] returns, and all it does
    is append the handle to the queue of pending additions: the
    materialized set, the queue of pending removals and the generation are
    as before. *)
Theorem RequestAddObject_only_enqueues (self : t) (in_object : shared_ptr) :
  in_object ≠ nullptr →
  ∃ self', RequestAddObject in_object self = Some self' ∧
           m_objectsToAdd self' = m_objectsToAdd self ++ [in_object] ∧
           m_objects self' = m_objects self ∧
           m_objectsToRemove self' = m_objectsToRemove self ∧
           m_generationId self' = m_generationId self.
Proof.
  intros Hne. eexists. split; [by apply RequestAddObject_Some|]. done.
Qed.

(** C10. [ForEach] returns with both queues empty, whatever they held:
    entries that changed nothing are gone with the others, and a second
    [ForEach] finds nothing to apply and leaves the registry as it is. *)
Theorem ForEach_consumes_pending {S S2 : Type}
    (fn : shared_ptr → S → EPredicateResult * S) (self : t) (s : S)
    (fn2 : shared_ptr → S2 → EPredicateResult * S2) (s2 : S2) :
  ∃ self' s' calls,
    ForEach (Some fn) self s = Some (self', s', calls) ∧
    m_objectsToAdd self' = [] ∧
    m_objectsToRemove self' = [] ∧
    ∃ s2' calls2, ForEach (Some fn2) self' s2 = Some (self', s2', calls2).
Proof.
  do 3 eexists. split; [apply ForEach_eq|].
  destruct (drain_queues [m_objectsLock] self) as [Ha Hr].
  split_and!; [done..|].
  do 2 eexists. rewrite ForEach_eq, drain_drain. reflexivity.
Qed.

(** C3. The materialized set of a registry never holds a handle twice; and
    when the same object is requested twice before a [ForEach], with no
    removal of it pending, that [ForEach] leaves exactly one occurrence of
    it. *)
Theorem add_twice_one_occurrence {S : Type}
    (fn : shared_ptr → S → EPredicateResult * S) (s : S)
    (self : t) (in_object : shared_ptr) :
  reachable self →
  in_object ≠ nullptr →
  in_object ∉ m_objectsToRemove self →
  NoDup (m_objects self) ∧
  ∃ self1 self2 self3 s' calls,
    RequestAddObject in_object self = Some self1 ∧
    RequestAddObject in_object self1 = Some self2 ∧
    ForEach (Some fn) self2 s = Some (self3, s', calls) ∧
    occurrences in_object (m_objects self3) = 1%nat ∧
    NoDup (m_objects self3).
Proof.
  intros Hr%reachable_invariant Hne Hrm.
  split; [apply Hr|].
  do 5 eexists.
  split; [by apply RequestAddObject_Some|].
  split; [by apply RequestAddObject_Some|].
  split; [apply ForEach_eq|].
  rewrite drain_eq. simpl. split.
  - rewrite process_removals_occurrences_other by done.
    rewrite process_additions_occurrences.
    destruct (decide (in_object ∈ m_objects self)) as [Hin|Hin].
    + pose proof (occurrences_NoDup in_object _ (invariant_NoDup _ Hr)).
      apply occurrences_pos in Hin. lia.
    + rewrite decide_True; [done|].
      rewrite !elem_of_app, list_elem_of_singleton. auto.
  - apply process_removals_NoDup, process_additions_NoDup, Hr.
Qed.

(** C5. A [ForEach] applies the whole queue of additions and then the
    whole queue of removals.  So an object that was not in the
    materialized set and is pending in both queues is not in the set
    afterwards, although applying the removals first would have left it
    in. *)
Theorem additions_before_removals {S : Type}
    (fn : shared_ptr → S → EPredicateResult * S) (s : S)
    (self : t) (o : shared_ptr) :
  o ∉ m_objects self →
  o ∈ m_objectsToAdd self →
  o ∈ m_objectsToRemove self →
  ∃ self' s' calls,
    ForEach (Some fn) self s = Some (self', s', calls) ∧
    (let added := process_additions (m_objectsToAdd self) (m_objects self) false in
     m_objects self' =
     (process_removals (m_objectsToRemove self) added.1 added.2).1) ∧
    (o ∉ m_objects self') ∧
    (let removed := process_removals (m_objectsToRemove self) (m_objects self) false in
     o ∈ (process_additions (m_objectsToAdd self) removed.1 removed.2).1).
Proof.
  intros Hno Ha Hr.
  do 3 eexists. split; [apply ForEach_eq|].
  rewrite drain_eq. simpl. split_and!; [done | |].
  - apply occurrences_zero, process_removals_occurrences_gone; [done|].
    rewrite process_additions_occurrences.
    rewrite decide_False, decide_True by done. done.
  - apply process_additions_elem. auto.
Qed.
End RegistryTheorems.

Lemma RequestAddObject_only_enqueues_witness :
  Example.obj1 ≠ nullptr ∧
  ∃ self', DObjectRegistry.RequestAddObject Example.obj1 DObjectRegistry.init = Some self' ∧
           DObjectRegistry.m_objectsToAdd self' = [] ++ [Example.obj1] ∧
           DObjectRegistry.m_objects self' = [] ∧
           DObjectRegistry.m_objectsToRemove self' = [] ∧
           DObjectRegistry.m_generationId self' = 0.
Proof.
  split; [done|].
  apply (RequestAddObject_only_enqueues DObjectRegistry.init Example.obj1). done.
Defined.

Lemma add_twice_one_occurrence_witness :
  DObjectRegistry.reachable DObjectRegistry.init ∧
  Example.obj1 ≠ nullptr ∧
  (Example.obj1 ∉ DObjectRegistry.m_objectsToRemove DObjectRegistry.init) ∧
  ∃ self1 self2 self3 s' calls,
    DObjectRegistry.RequestAddObject Example.obj1 DObjectRegistry.init = Some self1 ∧
    DObjectRegistry.RequestAddObject Example.obj1 self1 = Some self2 ∧
    DObjectRegistry.ForEach (Some Example.record) self2 [] = Some (self3, s', calls) ∧
    occurrences Example.obj1 (DObjectRegistry.m_objects self3) = 1%nat ∧
    NoDup (DObjectRegistry.m_objects self3).
Proof.
  assert (DObjectRegistry.reachable DObjectRegistry.init) as Hr by apply rtc_refl.
  assert (Example.obj1 ≠ nullptr) as Hne by done.
  assert (Example.obj1 ∉ DObjectRegistry.m_objectsToRemove DObjectRegistry.init) as Hrm
    by apply not_elem_of_nil.
  split_and!; [done..|].
  exact (proj2 (add_twice_one_occurrence Example.record [] DObjectRegistry.init
                  Example.obj1 Hr Hne Hrm)).
Defined.

Lemma additions_before_removals_witness :
  let self := DObjectRegistry.Build [Example.obj3] [Example.obj1] [Example.obj1] 1 in
  (Example.obj1 ∉ DObjectRegistry.m_objects self) ∧
  Example.obj1 ∈ DObjectRegistry.m_objectsToAdd self ∧
  Example.obj1 ∈ DObjectRegistry.m_objectsToRemove self ∧
  ∃ self' s' calls,
    DObjectRegistry.ForEach (Some Example.record) self [] = Some (self', s', calls) ∧
    Example.obj1 ∉ DObjectRegistry.m_objects self'.
Proof.
  intros self.
  assert (Example.obj1 ∉ DObjectRegistry.m_objects self) as H1
    by (apply not_elem_of_cons; split; [done | apply not_elem_of_nil]).
  assert (Example.obj1 ∈ DObjectRegistry.m_objectsToAdd self) as H2 by apply list_elem_of_here.
  assert (Example.obj1 ∈ DObjectRegistry.m_objectsToRemove self) as H3 by apply list_elem_of_here.
  split_and!; [done..|].
  destruct (additions_before_removals Example.record [] self Example.obj1 H1 H2 H3)
    as (self' & s' & calls & Hf & _ & Hno & _).
  by exists self', s', calls.
Defined.

(** * Enumerations and views *)



Section EnumerationTheorems.
Import DObjectRegistry.
Variable deref : shared_ptr → DQueryInterface.t.



(** C4. The removal closure is called once, before anything is locked or
    queued, and the handle that is queued is the one the closure leaves.
    When it answers [CancellationRequested] the registry is left exactly
    as it was, so an object that was in the materialized set or about to
    be added, with no other removal pending, is in the set after the next
    [ForEach], and in every view of an interface it implements that is
    then rebuilt or already listed it. *)
Theorem veto_keeps_object {S S2 : Type}
    (fn : shared_ptr → EPredicateResult * shared_ptr)
    (p : shared_ptr → S → EPredicateResult * S) (s : S)
    (q : shared_ptr → S2 → EPredicateResult * S2) (s2 : S2)
    (c : DInterfaceCollection.t) (self : t) (in_object : shared_ptr) :
  in_object ≠ nullptr →
  (fn in_object).1 = CancellationRequested →
  in_object ∈ m_objects self ∨ in_object ∈ m_objectsToAdd self →
  in_object ∉ m_objectsToRemove self →
  HasInterface_T (deref in_object) (DInterfaceCollection.TINTERFACE c) = true →
  DInterfaceCollection.m_generationId c ≠ GetGenerationId (drain [m_objectsLock] self)
  ∨ in_object ∈ DInterfaceCollection.m_objects c →
  (∀ fn', RequestRemoveObject in_object (Some fn') self =
          Some (match (fn' in_object).1 with
                | CancellationRequested => self
                | Ok => Build (m_objects self) (m_objectsToAdd self)
                              (m_objectsToRemove self ++ [(fn' in_object).2])
                              (m_generationId self)
                end,
                [Call [] in_object (fn' in_object).1])) ∧
  RequestRemoveObject in_object (Some fn) self
    = Some (self, [Call [] in_object CancellationRequested]) ∧
  ∃ self' s' calls,
    ForEach (Some p) self s = Some (self', s', calls) ∧
    in_object ∈ m_objects self' ∧
    ∃ c' s2' calls2,
      DInterfaceCollection.ForEach deref (Some q) c self' s2
        = Some (c', self', s2', calls2) ∧
      in_object ∈ DInterfaceCollection.m_objects c'.
Proof.
  intros Hne Hveto Hin Hrm Hhas Hview.
  assert (∀ fn', RequestRemoveObject in_object (Some fn') self =
          Some (match (fn' in_object).1 with
                | CancellationRequested => self
                | Ok => Build (m_objects self) (m_objectsToAdd self)
                              (m_objectsToRemove self ++ [(fn' in_object).2])
                              (m_generationId self)
                end,
                [Call [] in_object (fn' in_object).1])) as Hcall.
  { intros fn'. unfold RequestRemoveObject, scoped_lock, push_back, to_bool.
    destruct (N.eqb_spec in_object nullptr) as [|_]; [done|]. simpl.
    by destruct (fn' in_object) as [[] o']. }
  split; [done|]. split; [by rewrite Hcall, Hveto|].
  assert (in_object ∈ m_objects (drain [m_objectsLock] self)) as Hkept.
  { rewrite drain_eq. simpl. apply occurrences_pos.
    rewrite process_removals_occurrences_other by done.
    apply occurrences_pos, process_additions_elem. done. }
  do 3 eexists. split; [apply ForEach_eq|]. split; [done|].
  destruct (decide (DInterfaceCollection.m_generationId c
                    = GetGenerationId (drain [m_objectsLock] self))) as [Heq|Hstale].
  - destruct Hview as [?|Hc]; [done|].
    do 3 eexists. split; [by apply Collection_ForEach_eq, rebuild_fresh|]. done.
  - pose proof (rebuild_stale deref c _ Hstale) as Hreb.
    rewrite drain_drain in Hreb.
    do 3 eexists. split; [by apply Collection_ForEach_eq|]. simpl.
    unfold implementing. by apply list_elem_of_filter.
Qed.
End EnumerationTheorems.

(** * The generation counter *)

Section Generation.
Import DObjectRegistry.

Lemma process_additions_fresh (o : shared_ptr) :
  process_additions [o] [] false = ([o], true).
Proof. reflexivity. Qed.

Lemma process_removals_only (o : shared_ptr) :
  process_removals [o] [o] false = ([], true).
Proof.
  simpl. unfold find. simpl. rewrite decide_True by done. reflexivity.
Qed.

(** Adding an object and removing it again, each followed by a [ForEach],
    takes the generation through every value of [unsigned int]. *)
Lemma reachable_generation (o : shared_ptr) (n : Z) :
  o ≠ nullptr → 0 ≤ n →
  reachable (Build (if Z.even n then [] else [o]) [] [] (n mod (UINT_MAX + 1))).
Proof.
  intros Hne Hn. revert n Hn. apply natlike_ind; [apply rtc_refl|].
  intros n Hn IH.
  rewrite Z.even_succ, <- Z.negb_even.
  replace (Z.succ n mod (UINT_MAX + 1)) with (incr (n mod (UINT_MAX + 1)))
    by (unfold incr; rewrite Zplus_mod_idemp_l; f_equal; lia).
  destruct (Z.even n); simpl.
  - eapply reachable_step;
      [eapply reachable_step; [exact IH | apply (step_RequestAddObject _ _ o)]
      |eapply (step_ForEach _ _ unit (Some (λ _ u, (Ok, u))) tt)].
    + by apply RequestAddObject_Some.
    + rewrite ForEach_eq, drain_eq. cbn [m_objects m_objectsToAdd m_objectsToRemove m_generationId].
      rewrite app_nil_l, process_additions_fresh. cbn [fst snd process_removals].
      reflexivity.
  - eapply reachable_step;
      [eapply reachable_step; [exact IH | apply (step_RequestRemoveObject _ _ o None [])]
      |eapply (step_ForEach _ _ unit (Some (λ _ u, (Ok, u))) tt)].
    + unfold RequestRemoveObject, scoped_lock, push_back, to_bool.
      destruct (N.eqb_spec o nullptr) as [|_]; [done|]. reflexivity.
    + rewrite ForEach_eq, drain_eq. cbn [m_objects m_objectsToAdd m_objectsToRemove m_generationId].
      rewrite app_nil_l. cbn [process_additions fst snd].
      rewrite process_removals_only. cbn [fst snd for_each]. reflexivity.
Qed.

Lemma reachable_UINT_MAX (o : shared_ptr) :
  o ≠ nullptr → reachable (Build [o] [] [] UINT_MAX).
Proof.
  intros Hne.
  exact (reachable_generation o UINT_MAX Hne ltac:(unfold UINT_MAX; lia)).
Qed.

(** C2, as the code has it.  A [ForEach] of a registry adds 1 modulo 2^32
    to the generation when its pending requests ask for a structural
    change, so that [UINT_MAX] is followed by 0, and leaves the generation
    and the materialized set as they are otherwise, even with requests
    pending.  The two requests leave the generation as it is.  So an
    operation either keeps the generation or moves it to the next value
    modulo 2^32, and below [UINT_MAX] no operation makes it smaller. *)
Theorem generation_counts_modulo {S : Type}
    (fn : shared_ptr → S → EPredicateResult * S) (s : S) (self : t) :
  reachable self →
  ∃ self' s' calls,
    ForEach (Some fn) self s = Some (self', s', calls) ∧
    (structural_change self ∧
       m_generationId self' = (m_generationId self + 1) mod 2 ^ 32 ∧
       m_generationId self' =
         (if decide (m_generationId self = UINT_MAX) then 0 else m_generationId self + 1)
     ∨ ¬ structural_change self ∧
       m_generationId self' = m_generationId self ∧
       m_objects self' = m_objects self) ∧
    (∀ in_object self'',
       RequestAddObject in_object self = Some self'' →
       m_generationId self'' = m_generationId self) ∧
    (∀ in_object rm self'' calls'',
       RequestRemoveObject in_object rm self = Some (self'', calls'') →
       m_generationId self'' = m_generationId self) ∧
    (∀ self'', step self self'' →
       m_generationId self'' = m_generationId self ∨
       m_generationId self'' = (m_generationId self + 1) mod 2 ^ 32) ∧
    (∀ self'', step self self'' → m_generationId self < UINT_MAX →
       m_generationId self ≤ m_generationId self'' ≤ m_generationId self + 1).
Proof.
  intros Hr. pose proof (invariant_generationId _ (reachable_invariant _ Hr)) as Hg.
  assert (∀ h, m_generationId (drain h self) =
               if (process_pending h self).2 then incr (m_generationId self)
               else m_generationId self) as Hgen.
  { intros h. rewrite drain_eq. unfold process_pending, scoped_lock.
    by destruct (process_additions _ _ _). }
  assert (incr (m_generationId self) =
          if decide (m_generationId self = UINT_MAX) then 0 else m_generationId self + 1)
    as Hexact.
  { unfold incr. destruct (decide _) as [->|Hne]; [reflexivity|].
    apply Z.mod_small. unfold UINT_MAX in *. lia. }
  assert (∀ in_object self'',
            RequestAddObject in_object self = Some self'' →
            m_generationId self'' = m_generationId self) as Hadd.
  { intros o self'' H. by apply RequestAddObject_Some in H as [_ ->]. }
  assert (∀ in_object rm self'' calls'',
            RequestRemoveObject in_object rm self = Some (self'', calls'') →
            m_generationId self'' = m_generationId self) as Hrem.
  { intros o rm self'' calls'' H. by apply RequestRemoveObject_Some in H as (_ & _ & ?). }
  assert (∀ self'', step self self'' →
            m_generationId self'' = m_generationId self ∨
            m_generationId self'' = incr (m_generationId self)) as Hstep.
  { intros self'' [o H|o f calls H|S' f s1 s1' calls H].
    - left. by eapply Hadd.
    - left. by eapply Hrem.
    - apply ForEach_Some in H as (_ & _ & -> & _). rewrite Hgen.
      destruct (process_pending _ _).2; auto. }
  do 3 eexists. split; [apply ForEach_eq|]. split_and!.
  - rewrite Hgen.
    destruct (process_pending [m_objectsLock] self).2 eqn:Hc.
    + left. split; [by apply (drain_changed [m_objectsLock])|]. by rewrite <- Hexact.
    + right. split.
      { rewrite <- (drain_changed [m_objectsLock]), Hc. done. }
      split; [done|]. rewrite drain_eq. simpl.
      unfold process_pending, scoped_lock in Hc.
      destruct (process_additions (m_objectsToAdd self) (m_objects self) false)
        as [objects changed] eqn:Ea. simpl in *.
      apply process_removals_unchanged in Hc as [-> ->].
      pose proof (process_additions_unchanged (m_objectsToAdd self) (m_objects self) false)
        as Hu.
      rewrite Ea in Hu. simpl in Hu. by destruct Hu.
  - exact Hadd.
  - exact Hrem.
  - exact Hstep.
  - intros self'' Hs Hlt. destruct (Hstep _ Hs) as [->| ->]; [lia|].
    rewrite Hexact, decide_False by lia. lia.
Qed.
End Generation.

Lemma generation_counts_modulo_witness :
  let self := DObjectRegistry.Build [] [Example.obj1] [] 0 in
  DObjectRegistry.reachable self ∧
  structural_change self ∧
  (∃ self' s' calls,
     DObjectRegistry.ForEach (Some Example.record) self [] = Some (self', s', calls) ∧
     DObjectRegistry.m_generationId self' = 1) ∧
  DObjectRegistry.m_generationId
    (DObjectRegistry.Build [] [Example.obj1; Example.obj3] [] 0)
  = DObjectRegistry.m_generationId self.
Proof.
  intros self.
  assert (DObjectRegistry.reachable self) as Hr.
  { eapply reachable_step; [apply rtc_refl|].
    apply (DObjectRegistry.step_RequestAddObject _ _ Example.obj1). reflexivity. }
  assert (structural_change self) as Hc.
  { left. exists Example.obj1. split; [apply list_elem_of_here | apply not_elem_of_nil]. }
  destruct (generation_counts_modulo Example.record [] self Hr)
    as (self' & s' & calls & Hf & Hgen & Hadd & _).
  split_and!; [exact Hr | exact Hc | | ].
  - exists self', s', calls. split; [exact Hf|].
    destruct Hgen as [(_ & _ & Hexact)|(Hno & _)]; [exact Hexact | destruct (Hno Hc)].
  - exact (Hadd Example.obj3 _ eq_refl).
Defined.

(** C2 as stated fails at the top of [unsigned int]: the registry that has
    seen [UINT_MAX] changes and has a removal pending goes from generation
    [UINT_MAX] to 0 on its next [ForEach], which is neither one more nor at
    least as much. *)
Lemma generation_decreases_at_UINT_MAX :
  let self := DObjectRegistry.Build [Example.obj3] [] [Example.obj3] UINT_MAX in
  DObjectRegistry.reachable self ∧
  structural_change self ∧
  ∃ self' s' calls,
    DObjectRegistry.ForEach (Some Example.record) self [] = Some (self', s', calls) ∧
    DObjectRegistry.m_objects self' = [] ∧
    DObjectRegistry.m_generationId self' = 0 ∧
    DObjectRegistry.m_generationId self' ≠ DObjectRegistry.m_generationId self + 1 ∧
    ¬ (DObjectRegistry.m_generationId self ≤ DObjectRegistry.m_generationId self').
Proof.
  intros self. split_and!.
  - eapply reachable_step; [apply (reachable_UINT_MAX Example.obj3); done|].
    apply (DObjectRegistry.step_RequestRemoveObject _ _ Example.obj3 None []). reflexivity.
  - right. exists Example.obj3. split; [apply list_elem_of_here|].
    left. apply list_elem_of_here.
  - exists (DObjectRegistry.Build [] [] [] 0), [], [].
    split; [reflexivity|]. simpl. unfold UINT_MAX. split_and!; [done.. | lia | lia].
Qed.

(** C7 at the registry generation [UINT_MAX], which is the initial
    generation of a view: the first [ForEach] of a new view of
    [DFooInterface] does not rebuild, and enumerates nothing although the
    registry holds an object that implements [DFooInterface]. *)
Theorem new_view_not_rebuilt_at_UINT_MAX :
  let self := DObjectRegistry.Build [Example.obj3] [] [] UINT_MAX in
  let view := DInterfaceCollection.CreateInterfaceCollection Example.DFooInterface self in
  DObjectRegistry.reachable self ∧
  HasInterface_T (Example.deref Example.obj3) Example.DFooInterface = true ∧
  DInterfaceCollection.GetGenerationId view = DObjectRegistry.GetGenerationId self ∧
  DInterfaceCollection.ForEach Example.deref (Some Example.record) view self []
    = Some (view, self, [], []).
Proof.
  intros self view. split_and!; [|reflexivity..].
  apply reachable_UINT_MAX. done.
Qed.

(** For every other generation of the registry a new view is rebuilt by
    its first [ForEach]. *)
Lemma new_view_rebuilt_below_UINT_MAX (deref : shared_ptr → DQueryInterface.t)
    (T : type_info) (self : DObjectRegistry.t) :
  DObjectRegistry.m_generationId self ≠ UINT_MAX →
  DInterfaceCollection.rebuild deref
    (DInterfaceCollection.CreateInterfaceCollection T self) self =
  Some (DInterfaceCollection.Build T
          (implementing deref T
             (DObjectRegistry.m_objects (DObjectRegistry.drain [m_objectsLock] self)))
          (DObjectRegistry.GetGenerationId (DObjectRegistry.drain [m_objectsLock] self)),
        DObjectRegistry.drain [m_objectsLock] self).
Proof.
  intros Hne. rewrite rebuild_stale; [done|].
  unfold DObjectRegistry.GetGenerationId. simpl. intros Heq. by apply Hne.
Qed.

(** * The scenario of the example program *)

Lemma example_reachable :
  DObjectRegistry.reachable
    (DObjectRegistry.Build [] [Example.obj1; Example.obj3] [] 0).
Proof.
  eapply reachable_step; [eapply reachable_step; [apply rtc_refl|]|].
  - apply (DObjectRegistry.step_RequestAddObject _ _ Example.obj1). reflexivity.
  - apply (DObjectRegistry.step_RequestAddObject _ _ Example.obj3). reflexivity.
Qed.


Lemma veto_keeps_object_witness :
  let self := DObjectRegistry.Build [Example.obj1; Example.obj3] [] [] 1 in
  let view := DInterfaceCollection.CreateInterfaceCollection Example.DFooInterface self in
  let veto := λ o : shared_ptr, (CancellationRequested, o) in
  Example.obj3 ≠ nullptr ∧
  (veto Example.obj3).1 = CancellationRequested ∧
  (Example.obj3 ∈ DObjectRegistry.m_objects self
   ∨ Example.obj3 ∈ DObjectRegistry.m_objectsToAdd self) ∧
  (Example.obj3 ∉ DObjectRegistry.m_objectsToRemove self) ∧
  HasInterface_T (Example.deref Example.obj3) (DInterfaceCollection.TINTERFACE view) = true ∧
  (DInterfaceCollection.m_generationId view
     ≠ DObjectRegistry.GetGenerationId (DObjectRegistry.drain [m_objectsLock] self)
   ∨ Example.obj3 ∈ DInterfaceCollection.m_objects view) ∧
  DObjectRegistry.RequestRemoveObject Example.obj3 (Some veto) self
    = Some (self, [Call [] Example.obj3 CancellationRequested]) ∧
  ∃ self' s' calls,
    DObjectRegistry.ForEach (Some Example.record) self [] = Some (self', s', calls) ∧
    Example.obj3 ∈ DObjectRegistry.m_objects self' ∧
    ∃ view' s2' calls2,
      DInterfaceCollection.ForEach Example.deref (Some Example.record) view self' []
        = Some (view', self', s2', calls2) ∧
      Example.obj3 ∈ DInterfaceCollection.m_objects view'.
Proof.
  intros self view veto.
  assert (Example.obj3 ≠ nullptr) as H1 by done.
  assert ((veto Example.obj3).1 = CancellationRequested) as H2 by reflexivity.
  assert (Example.obj3 ∈ DObjectRegistry.m_objects self
          ∨ Example.obj3 ∈ DObjectRegistry.m_objectsToAdd self) as H3
    by (left; apply list_elem_of_further, list_elem_of_here).
  assert (Example.obj3 ∉ DObjectRegistry.m_objectsToRemove self) as H4
    by apply not_elem_of_nil.
  assert (HasInterface_T (Example.deref Example.obj3)
            (DInterfaceCollection.TINTERFACE view) = true) as H5 by reflexivity.
  assert (DInterfaceCollection.m_generationId view
            ≠ DObjectRegistry.GetGenerationId (DObjectRegistry.drain [m_objectsLock] self)
          ∨ Example.obj3 ∈ DInterfaceCollection.m_objects view) as H6
    by (left; done).
  destruct (veto_keeps_object Example.deref veto Example.record []
              Example.record [] view self Example.obj3 H1 H2 H3 H4 H5 H6)
    as (_ & Hcall & Hkept).
  split_and!; [exact H1 | exact H2 | exact H3 | exact H4 | exact H5 | exact H6
              | exact Hcall | exact Hkept].
Defined.

(** * Further properties of the registry *)

Section FurtherVectorFacts.
Context {A : Type} `{EqDecision A}.
Implicit Types (l : list A) (x y : A).

Lemma find_middle l1 x l2 : x ∉ l1 → find (l1 ++ x :: l2) x = Some (length l1).
Proof.
  induction l1 as [|a l1 IH]; intros Hx.
  - unfold find. simpl. by rewrite decide_True.
  - apply not_elem_of_cons in Hx as [Hne Hx]. specialize (IH Hx).
    unfold find in *. simpl. rewrite decide_False by congruence.
    destruct (list_find _ (l1 ++ x :: l2)) as [[i z]|]; simpl in *; [|done].
    by injection IH as ->.
Qed.

(** What is left when slot [length l1] takes the last element and the last
    slot is dropped. *)
Lemma swap_remove_middle l1 x l2 :
  pop_back (<[length l1 := back (l1 ++ x :: l2) x]> (l1 ++ x :: l2)) =
  l1 ++ match last l2 with Some y => y :: pop_back l2 | None => [] end.
Proof.
  unfold back, pop_back. rewrite length_insert.
  destruct l2 as [|y l2 _] using rev_ind.
  - rewrite last_snoc. simpl.
    rewrite list_insert_id by (apply list_lookup_middle; reflexivity).
    rewrite length_app. simpl. rewrite Nat.add_1_r. simpl.
    by rewrite take_app_length, app_nil_r.
  - replace (l1 ++ x :: l2 ++ [y]) with ((l1 ++ x :: l2) ++ [y])
      by (rewrite <- app_assoc; reflexivity).
    rewrite !last_snoc. simpl.
    rewrite (length_app l2), (length_app (l1 ++ x :: l2)). simpl.
    rewrite !Nat.add_1_r. simpl. rewrite (take_app_length l2).
    rewrite <- app_assoc. simpl.
    rewrite insert_app_r_alt, Nat.sub_diag by lia. simpl.
    replace (l1 ++ y :: l2 ++ [y]) with ((l1 ++ y :: l2) ++ [y])
      by (rewrite <- app_assoc; reflexivity).
    replace (length (l1 ++ x :: l2)) with (length (l1 ++ y :: l2))
      by (rewrite !length_app; reflexivity).
    by rewrite take_app_length.
Qed.
End FurtherVectorFacts.

Section FurtherDrain.
Import DObjectRegistry.
Implicit Types (pending objects : list shared_ptr) (changed : bool) (o it : shared_ptr).

(** The additions go after what was there, each new object once, in the
    order of its first request: what precedes an object among the new ones
    is what was requested, and was not there, before its first request. *)
Lemma process_additions_appended pending objects changed :
  ∃ new,
    (process_additions pending objects changed).1 = objects ++ new ∧
    new `sublist_of` pending ∧
    NoDup new ∧
    (∀ o, o ∈ new ↔ o ∈ pending ∧ o ∉ objects) ∧
    ∀ before o after,
      new = before ++ o :: after →
      ∃ earlier later,
        pending = earlier ++ o :: later ∧
        (o ∉ earlier) ∧
        ∀ a, a ∈ before ↔ a ∈ earlier ∧ a ∉ objects.
Proof.
  revert objects changed.
  induction pending as [|it rest IH]; intros objects changed; simpl.
  - exists []. rewrite app_nil_r. split_and!; [done | done | constructor | |].
    + intros o. rewrite !elem_of_nil. tauto.
    + intros before o after H. by destruct before.
  - destruct (find objects it) as [i|] eqn:E.
    + apply find_elem_of in E.
      destruct (IH objects changed) as (new & Heq & Hsub & Hnd & Hin & Hord).
      exists new. split_and!; [done | by apply sublist_cons | done | |].
      * intros o. rewrite Hin, elem_of_cons. split; [tauto|].
        intros [[->|?] ?]; [done | tauto].
      * intros before o after Hnew.
        destruct (Hord _ _ _ Hnew) as (earlier & later & -> & Hfirst & Hbefore).
        assert (o ∉ objects) as Ho.
        { apply (Hin o). rewrite Hnew, elem_of_app, elem_of_cons. auto. }
        exists (it :: earlier), later. split_and!; [done | |].
        -- rewrite not_elem_of_cons. split; [congruence | done].
        -- intros a. rewrite Hbefore, elem_of_cons. split; [tauto|].
           intros [[->|?] ?]; [done | tauto].
    + apply find_None in E.
      destruct (IH (push_back objects it) true) as (new & Heq & Hsub & Hnd & Hin & Hord).
      unfold push_back in *. exists (it :: new).
      split_and!.
      * by rewrite Heq, <- app_assoc.
      * by apply sublist_skip.
      * apply NoDup_cons. split; [|done].
        rewrite Hin, not_elem_of_app, list_elem_of_singleton. tauto.
      * intros o. rewrite !elem_of_cons, Hin, not_elem_of_app, list_elem_of_singleton.
        destruct (decide (o = it)) as [->|]; tauto.
      * intros before o after Hnew.
        destruct before as [|b before]; simpl in Hnew; injection Hnew as <- Hnew.
        -- exists [], rest. split_and!; [done | apply not_elem_of_nil |].
           intros a. rewrite !elem_of_nil. tauto.
        -- destruct (Hord _ _ _ Hnew) as (earlier & later & -> & Hfirst & Hbefore).
           assert (o ≠ it) as Hne.
           { assert (o ∈ new) as Ho
               by (rewrite Hnew, elem_of_app, elem_of_cons; auto).
             apply Hin in Ho as [_ Ho].
             rewrite not_elem_of_app, list_elem_of_singleton in Ho. tauto. }
           exists (it :: earlier), later. split_and!; [done | |].
           ++ rewrite not_elem_of_cons. split; [done | done].
           ++ intros a. rewrite !elem_of_cons, Hbefore, not_elem_of_app,
                list_elem_of_singleton.
              destruct (decide (a = it)) as [->|]; tauto.
Qed.
End FurtherDrain.

Section FurtherRegistryTheorems.
Import DObjectRegistry.

(** What a removal request on a non-empty handle returns and leaves. *)
Lemma RequestRemoveObject_result (self : t) (in_object : shared_ptr)
    (fn : removal_function) :
  in_object ≠ nullptr →
  ∃ self' calls,
    RequestRemoveObject in_object fn self = Some (self', calls) ∧
    m_objects self' = m_objects self ∧
    m_objectsToAdd self' = m_objectsToAdd self ∧
    m_generationId self' = m_generationId self ∧
    match fn with
    | None =>
        m_objectsToRemove self' = m_objectsToRemove self ++ [in_object] ∧ calls = []
    | Some fn =>
        calls = [Call [] in_object (fn in_object).1] ∧
        m_objectsToRemove self' =
          match (fn in_object).1 with
          | CancellationRequested => m_objectsToRemove self
          | Ok => m_objectsToRemove self ++ [(fn in_object).2]
          end
    end.
Proof.
  intros Hne. unfold RequestRemoveObject, scoped_lock, push_back, to_bool.
  destruct (N.eqb_spec in_object nullptr) as [|_]; [done|]. simpl.
  destruct fn as [fn|]; [|by do 2 eexists].
  destruct (fn in_object) as [[] o']; simpl; by do 2 eexists.
Qed.

(** X3. The removal closure receives the handle by mutable reference: when
    it leaves another object in it and does not cancel, it is that other
    object that the next [ForEach] removes, and the object the request was
    made for stays. *)
Theorem removal_closure_redirects_removal {S : Type}
    (fn : shared_ptr → EPredicateResult * shared_ptr)
    (p : shared_ptr → S → EPredicateResult * S) (s : S)
    (self : t) (in_object other : shared_ptr) :
  reachable self →
  in_object ≠ nullptr →
  fn in_object = (Ok, other) →
  other ≠ in_object →
  in_object ∈ m_objects self →
  in_object ∉ m_objectsToRemove self →
  ∃ self1 calls self2 s' calls',
    RequestRemoveObject in_object (Some fn) self = Some (self1, calls) ∧
    ForEach (Some p) self1 s = Some (self2, s', calls') ∧
    in_object ∈ m_objects self2 ∧
    other ∉ m_objects self2.
Proof.
  intros Hr%reachable_invariant Hne Hfn Hother Hin Hrm.
  destruct (RequestRemoveObject_result self in_object (Some fn) Hne)
    as (self1 & calls & Hreq & Ho & Ha & Hg & _ & Hq).
  rewrite Hfn in Hq. simpl in Hq.
  exists self1, calls. do 3 eexists.
  split; [exact Hreq|]. split; [apply ForEach_eq|].
  rewrite drain_eq. simpl. rewrite Ho, Ha, Hq. split.
  - apply occurrences_pos. rewrite process_removals_occurrences_other.
    + apply occurrences_pos, process_additions_elem. auto.
    + rewrite not_elem_of_app, list_elem_of_singleton. split; [done | congruence].
  - apply occurrences_zero, process_removals_occurrences_gone.
    + rewrite elem_of_app, list_elem_of_singleton. auto.
    + apply occurrences_NoDup, process_additions_NoDup, Hr.
Qed.

(** X4. On the materialized set a [ForEach] of the registry acts as on a
    set: afterwards it holds exactly the objects that were in it or pending
    for addition, and not pending for removal. *)
Theorem ForEach_applies_pending_as_sets {S : Type}
    (fn : shared_ptr → S → EPredicateResult * S) (s : S) (self : t) :
  reachable self →
  ∃ self' s' calls,
    ForEach (Some fn) self s = Some (self', s', calls) ∧
    ∀ o, o ∈ m_objects self' ↔
         (o ∈ m_objects self ∨ o ∈ m_objectsToAdd self) ∧ o ∉ m_objectsToRemove self.
Proof.
  intros Hr%reachable_invariant.
  do 3 eexists. split; [apply ForEach_eq|].
  intros o. rewrite drain_eq. simpl.
  rewrite <- occurrences_pos, <- (process_additions_elem _ _ false).
  destruct (decide (o ∈ m_objectsToRemove self)) as [Hrm|Hrm].
  - rewrite process_removals_occurrences_gone; [split; [lia | tauto] | done |].
    apply occurrences_NoDup, process_additions_NoDup, Hr.
  - rewrite process_removals_occurrences_other by done.
    rewrite occurrences_pos. tauto.
Qed.

(** X5. With no removal pending, a [ForEach] keeps every object of the
    materialized set in its slot and appends the new ones behind them, each
    once, in the order in which they were first requested: the new objects
    that precede a new object [o] in the set are exactly those requested
    before the first request of [o]. *)
Theorem additions_append_in_request_order {S : Type}
    (fn : shared_ptr → S → EPredicateResult * S) (s : S) (self : t) :
  m_objectsToRemove self = [] →
  ∃ self' s' calls new,
    ForEach (Some fn) self s = Some (self', s', calls) ∧
    m_objects self' = m_objects self ++ new ∧
    new `sublist_of` m_objectsToAdd self ∧
    NoDup new ∧
    (∀ o, o ∈ new ↔ o ∈ m_objectsToAdd self ∧ o ∉ m_objects self) ∧
    ∀ before o after,
      new = before ++ o :: after →
      ∃ earlier later,
        m_objectsToAdd self = earlier ++ o :: later ∧
        (o ∉ earlier) ∧
        ∀ a, a ∈ before ↔ a ∈ earlier ∧ a ∉ m_objects self.
Proof.
  intros Hrm.
  destruct (process_additions_appended (m_objectsToAdd self) (m_objects self) false)
    as (new & Heq & Hsub & Hnd & Hin & Hord).
  do 3 eexists. exists new. split; [apply ForEach_eq|].
  rewrite drain_eq, Hrm. simpl. done.
Qed.

(** X6. A removal does not keep the order: the last object of the
    materialized set takes the slot of the removed one, and the objects in
    between stay where they are. *)
Theorem removal_moves_last_into_slot {S : Type}
    (fn : shared_ptr → S → EPredicateResult * S) (s : S) (self : t)
    (before after : list shared_ptr) (in_object : shared_ptr) :
  m_objects self = before ++ in_object :: after →
  in_object ∉ before →
  m_objectsToAdd self = [] →
  m_objectsToRemove self = [in_object] →
  ∃ self' s' calls,
    ForEach (Some fn) self s = Some (self', s', calls) ∧
    m_objects self' =
      before ++ match last after with
                | Some moved => moved :: pop_back after
                | None => []
                end ∧
    m_generationId self' = incr (m_generationId self).
Proof.
  intros Ho Hx Ha Hrm.
  do 3 eexists. split; [apply ForEach_eq|].
  rewrite drain_eq, Ha, Hrm, Ho. simpl.
  rewrite find_middle by done. simpl.
  by rewrite swap_remove_middle.
Qed.
End FurtherRegistryTheorems.

Lemma example_filled_reachable :
  DObjectRegistry.reachable
    (DObjectRegistry.Build [Example.obj1; Example.obj3] [] [] 1).
Proof.
  eapply reachable_step; [apply example_reachable|].
  by eapply (DObjectRegistry.step_ForEach _ _ unit (Some (λ _ u, (Ok, u))) tt).
Qed.

Lemma removal_closure_redirects_removal_witness :
  let self := DObjectRegistry.Build [Example.obj1; Example.obj3] [] [] 1 in
  let redirect := λ o : shared_ptr, (Ok, Example.obj3) in
  DObjectRegistry.reachable self ∧
  Example.obj1 ≠ nullptr ∧
  redirect Example.obj1 = (Ok, Example.obj3) ∧
  Example.obj3 ≠ Example.obj1 ∧
  Example.obj1 ∈ DObjectRegistry.m_objects self ∧
  (Example.obj1 ∉ DObjectRegistry.m_objectsToRemove self) ∧
  ∃ self1 calls self2 s' calls',
    DObjectRegistry.RequestRemoveObject Example.obj1 (Some redirect) self
      = Some (self1, calls) ∧
    DObjectRegistry.ForEach (Some Example.record) self1 [] = Some (self2, s', calls') ∧
    Example.obj1 ∈ DObjectRegistry.m_objects self2 ∧
    (Example.obj3 ∉ DObjectRegistry.m_objects self2).
Proof.
  intros self redirect.
  assert (Example.obj1 ≠ nullptr) as H1 by done.
  assert (redirect Example.obj1 = (Ok, Example.obj3)) as H2 by reflexivity.
  assert (Example.obj3 ≠ Example.obj1) as H3 by done.
  assert (Example.obj1 ∈ DObjectRegistry.m_objects self) as H4 by apply list_elem_of_here.
  assert (Example.obj1 ∉ DObjectRegistry.m_objectsToRemove self) as H5
    by apply not_elem_of_nil.
  split_and!; [apply example_filled_reachable | exact H1 | exact H2 | exact H3
              | exact H4 | exact H5 |].
  exact (removal_closure_redirects_removal redirect Example.record [] self
           Example.obj1 Example.obj3 example_filled_reachable H1 H2 H3 H4 H5).
Defined.

Lemma ForEach_applies_pending_as_sets_witness :
  let self := DObjectRegistry.Build [] [Example.obj1; Example.obj3] [] 0 in
  DObjectRegistry.reachable self ∧
  ∃ self' s' calls,
    DObjectRegistry.ForEach (Some Example.record) self [] = Some (self', s', calls) ∧
    ∀ o, o ∈ DObjectRegistry.m_objects self' ↔
         (o ∈ DObjectRegistry.m_objects self ∨ o ∈ DObjectRegistry.m_objectsToAdd self)
         ∧ o ∉ DObjectRegistry.m_objectsToRemove self.
Proof.
  intros self. split; [apply example_reachable|].
  exact (ForEach_applies_pending_as_sets Example.record [] self example_reachable).
Defined.

Lemma additions_append_in_request_order_witness :
  let self := DObjectRegistry.Build [Example.obj3]
                [Example.obj1; Example.obj2; Example.obj1; Example.obj3] [] 1 in
  DObjectRegistry.m_objectsToRemove self = [] ∧
  ∃ self' s' calls new,
    DObjectRegistry.ForEach (Some Example.record) self [] = Some (self', s', calls) ∧
    DObjectRegistry.m_objects self' = [Example.obj3] ++ new ∧
    new = [Example.obj1; Example.obj2].
Proof.
  intros self. split; [reflexivity|].
  destruct (additions_append_in_request_order Example.record [] self eq_refl)
    as (self' & s' & calls & new & Hf & Ho & _).
  exists self', s', calls, new. split_and!; [exact Hf | exact Ho |].
  assert (DObjectRegistry.m_objects self' = [Example.obj3; Example.obj1; Example.obj2])
    as Hset by (injection Hf as <- _ _; reflexivity).
  rewrite Hset in Ho. by injection Ho as <-.
Defined.

Lemma removal_moves_last_into_slot_witness :
  let self := DObjectRegistry.Build [Example.obj1; Example.obj2; Example.obj3; Example.obj4]
                [] [Example.obj2] 1 in
  DObjectRegistry.m_objects self = [Example.obj1] ++ Example.obj2 :: [Example.obj3; Example.obj4] ∧
  (Example.obj2 ∉ [Example.obj1]) ∧
  DObjectRegistry.m_objectsToAdd self = [] ∧
  DObjectRegistry.m_objectsToRemove self = [Example.obj2] ∧
  ∃ self' s' calls,
    DObjectRegistry.ForEach (Some Example.record) self [] = Some (self', s', calls) ∧
    DObjectRegistry.m_objects self' = [Example.obj1; Example.obj4; Example.obj3] ∧
    DObjectRegistry.m_generationId self' = 2.
Proof.
  intros self.
  assert (Example.obj2 ∉ [Example.obj1]) as Hx
    by (apply not_elem_of_cons; split; [done | apply not_elem_of_nil]).
  split_and!; [reflexivity | exact Hx | reflexivity | reflexivity |].
  exact (removal_moves_last_into_slot Example.record [] self
           [Example.obj1] [Example.obj3; Example.obj4] Example.obj2
           eq_refl Hx eq_refl eq_refl).
Defined.

(** * Further properties of enumerations and views *)

Lemma for_each_never_cancelled {S : Type} (h : list mutex)
    (fn : shared_ptr → S → EPredicateResult * S) (objects : list shared_ptr) (s : S) :
  (∀ o s, (fn o s).1 = Ok) →
  for_each h fn objects s =
  (foldl (λ s o, (fn o s).2) s objects, (λ o, Call h o Ok) <$> objects).
Proof.
  intros Hok. revert s. induction objects as [|it rest IH]; intros s; simpl; [done|].
  specialize (Hok it s). destruct (fn it s) as [r s1]. simpl in *. subst r.
  by rewrite IH.
Qed.

Lemma incr_neq (n : Z) : 0 ≤ n ≤ UINT_MAX → incr n ≠ n.
Proof.
  unfold incr, UINT_MAX. intros Hn.
  destruct (decide (n = 4294967295)) as [->|Hne]; [done|].
  rewrite Z.mod_small by lia. lia.
Qed.

(** An operation either leaves the generation and the materialized set as
    they are, or moves the generation to the next value. *)
Lemma step_generation (self self' : DObjectRegistry.t) :
  invariant self → DObjectRegistry.step self self' →
  (DObjectRegistry.m_generationId self' = DObjectRegistry.m_generationId self ∧
   DObjectRegistry.m_objects self' = DObjectRegistry.m_objects self) ∨
  (DObjectRegistry.m_generationId self' = incr (DObjectRegistry.m_generationId self) ∧
   DObjectRegistry.m_generationId self' ≠ DObjectRegistry.m_generationId self).
Proof.
  intros Hinv [o H|o fn calls H|S fn s s' calls H].
  - apply RequestAddObject_Some in H as [_ ->]. by left.
  - apply RequestRemoveObject_Some in H as (? & _ & ?). by left.
  - apply ForEach_Some in H as (_ & _ & -> & _). rewrite drain_eq. simpl.
    destruct (DObjectRegistry.process_removals _ _ _).2 eqn:E.
    + right. split; [done|]. apply incr_neq, Hinv.
    + left. split; [done|].
      apply process_removals_unchanged in E as [-> E].
      by apply process_additions_unchanged in E as [-> _].
Qed.

Lemma requests_keep_set (self self' : DObjectRegistry.t) :
  rtc request self self' →
  DObjectRegistry.m_objects self' = DObjectRegistry.m_objects self ∧
  DObjectRegistry.m_generationId self' = DObjectRegistry.m_generationId self.
Proof.
  induction 1 as [|self self1 self2 Hreq _ [IHo IHg]]; [done|].
  rewrite IHo, IHg. destruct Hreq as [o H|o fn calls H].
  - apply RequestAddObject_Some in H as [_ ->]. done.
  - apply RequestRemoveObject_Some in H as (? & _ & ?). done.
Qed.

Lemma changes_generation (self self' : DObjectRegistry.t) (k : Z) :
  DObjectRegistry.reachable self → changes self k self' →
  0 ≤ k ∧
  DObjectRegistry.reachable self' ∧
  DObjectRegistry.m_generationId self'
    = (DObjectRegistry.m_generationId self + k) mod (UINT_MAX + 1) ∧
  (k = 0 → DObjectRegistry.m_objects self' = DObjectRegistry.m_objects self).
Proof.
  intros Hr. induction 1 as [self|self k self1 self2 _ IH Hstep Hsame
                             |self k self1 self2 _ IH Hstep Hbump].
  - pose proof (invariant_generationId _ (reachable_invariant _ Hr)) as Hg.
    split_and!; [done | done | | done].
    rewrite Z.add_0_r, Z.mod_small; [done | unfold UINT_MAX in *; lia].
  - destruct (IH Hr) as (Hk & Hr1 & Hg & Ho).
    split_and!; [done | by eapply reachable_step | congruence |].
    intros Hk0. rewrite <- (Ho Hk0).
    destruct (step_generation _ _ (reachable_invariant _ Hr1) Hstep)
      as [[_ ?]|[_ ?]]; done.
  - destruct (IH Hr) as (Hk & Hr1 & Hg & Ho).
    split_and!; [lia | by eapply reachable_step | | lia].
    destruct (step_generation _ _ (reachable_invariant _ Hr1) Hstep)
      as [[? _]|[-> _]]; [done|].
    unfold incr. rewrite Hg, Zplus_mod_idemp_l. f_equal. lia.
Qed.

Lemma RequestAddObjects_eq (objects : list shared_ptr) (self : DObjectRegistry.t) :
  nullptr ∉ objects →
  RequestAddObjects objects self =
  Some (DObjectRegistry.Build (DObjectRegistry.m_objects self)
          (DObjectRegistry.m_objectsToAdd self ++ objects)
          (DObjectRegistry.m_objectsToRemove self)
          (DObjectRegistry.m_generationId self)).
Proof.
  revert self. induction objects as [|o rest IH]; intros self Hn; simpl.
  - rewrite app_nil_r. by destruct self.
  - apply not_elem_of_cons in Hn as [Hne Hn].
    assert (DObjectRegistry.RequestAddObject o self = Some
              (DObjectRegistry.Build (DObjectRegistry.m_objects self)
                 (DObjectRegistry.m_objectsToAdd self ++ [o])
                 (DObjectRegistry.m_objectsToRemove self)
                 (DObjectRegistry.m_generationId self))) as ->
      by (apply RequestAddObject_Some; split; [congruence | done]).
    simpl. rewrite IH by done. simpl. by rewrite <- app_assoc.
Qed.

Lemma process_additions_all_new (pending objects : list shared_ptr) (changed : bool) :
  NoDup (objects ++ pending) →
  DObjectRegistry.process_additions pending objects changed =
  (objects ++ pending, match pending with [] => changed | _ => true end).
Proof.
  revert objects changed.
  induction pending as [|it rest IH]; intros objects changed Hnd; simpl.
  - by rewrite app_nil_r.
  - assert (it ∉ objects) as Hit.
    { apply NoDup_app in Hnd as (_ & Hd & _). intros Hin.
      apply (Hd it Hin), list_elem_of_here. }
    apply find_None in Hit. rewrite Hit. unfold push_back.
    rewrite IH by (by rewrite <- app_assoc).
    rewrite <- app_assoc. simpl. by destruct rest.
Qed.

Section FurtherViewTheorems.
Import DObjectRegistry.

(** X7. A closure that never cancels is called by the registry's [ForEach]
    exactly once for every object of the materialized set, in the order of
    the set, and its state is threaded through these calls. *)
Theorem ForEach_visits_every_object_once {S : Type}
    (fn : shared_ptr → S → EPredicateResult * S) (s : S) (self : t) :
  reachable self →
  (∀ o s, (fn o s).1 = Ok) →
  ∃ self' s' calls,
    ForEach (Some fn) self s = Some (self', s', calls) ∧
    arg <$> calls = m_objects self' ∧
    NoDup (arg <$> calls) ∧
    Forall (λ c, res c = Ok) calls ∧
    s' = foldl (λ s o, (fn o s).2) s (m_objects self').
Proof.
  intros Hr Hok.
  assert (NoDup (m_objects (drain [m_objectsLock] self))) as Hnd
    by apply drain_invariant, reachable_invariant, Hr.
  do 3 eexists. split; [apply ForEach_eq|].
  rewrite for_each_never_cancelled by done. simpl.
  rewrite <- list_fmap_compose.
  assert (arg ∘ (λ o, Call [m_objectsLock] o Ok) <$> m_objects (drain [m_objectsLock] self)
          = m_objects (drain [m_objectsLock] self)) as ->
    by (rewrite <- (list_fmap_id (m_objects _)) at 2; by apply list_fmap_ext).
  split_and!; [done | done | | done].
  apply Forall_fmap, Forall_forall. done.
Qed.

(** X9. Every [ForEach] of the registry that applies a structural change
    makes every view that had the registry's generation stale, whatever the
    interface of the view and even when the objects of the set end up the
    same; the next [ForEach] of the view rebuilds it from the new set. *)
Theorem structural_change_makes_views_stale {S S2 : Type}
    (deref : shared_ptr → DQueryInterface.t)
    (fn : shared_ptr → S → EPredicateResult * S) (s : S)
    (q : shared_ptr → S2 → EPredicateResult * S2) (s2 : S2)
    (view : DInterfaceCollection.t) (self : t) :
  reachable self →
  DInterfaceCollection.m_generationId view = GetGenerationId self →
  structural_change self →
  ∃ self' s' calls,
    ForEach (Some fn) self s = Some (self', s', calls) ∧
    DInterfaceCollection.m_generationId view ≠ GetGenerationId self' ∧
    ∃ view' s2' calls2,
      DInterfaceCollection.ForEach deref (Some q) view self' s2
        = Some (view', self', s2', calls2) ∧
      in_sync deref view' self'.
Proof.
  intros Hr Hgen Hc.
  assert (DInterfaceCollection.m_generationId view
          ≠ GetGenerationId (drain [m_objectsLock] self)) as Hstale.
  { rewrite Hgen. unfold GetGenerationId.
    assert (step self (drain [m_objectsLock] self)) as Hstep
      by (eapply (step_ForEach _ _ S (Some fn) s); apply ForEach_eq).
    destruct (step_generation _ _ (reachable_invariant _ Hr) Hstep) as [[Hg _]|[_ Hg]];
      [|congruence].
    apply (drain_changed [m_objectsLock]) in Hc.
    rewrite drain_eq in Hg. simpl in Hg.
    unfold process_pending, scoped_lock in Hc.
    destruct (process_additions _ _ _) as [objects changed]. simpl in *.
    rewrite Hc in Hg. exfalso.
    exact (incr_neq _ (invariant_generationId _ (reachable_invariant _ Hr)) Hg). }
  do 3 eexists. split; [apply ForEach_eq|]. split; [done|].
  pose proof (rebuild_stale deref view _ Hstale) as Hreb. rewrite drain_drain in Hreb.
  do 3 eexists. split; [by apply Collection_ForEach_eq|]. by split.
Qed.

(** X10. A view that has the registry's generation does not look at the
    queues: after any number of requests its [ForEach] leaves the requests
    pending and the view as it is, and enumerates the cache.  Requests reach
    a view only through a [ForEach] of the registry itself. *)
Theorem requests_wait_for_ForEach_of_registry {S : Type}
    (deref : shared_ptr → DQueryInterface.t)
    (q : shared_ptr → S → EPredicateResult * S) (s : S)
    (view : DInterfaceCollection.t) (self self' : t) :
  DInterfaceCollection.m_generationId view = GetGenerationId self →
  rtc request self self' →
  ∃ s' calls,
    DInterfaceCollection.ForEach deref (Some q) view self' s
      = Some (view, self', s', calls) ∧
    m_objects self' = m_objects self ∧
    enumerates calls (DInterfaceCollection.m_objects view).
Proof.
  intros Hgen [Ho Hg]%requests_keep_set.
  do 2 eexists. split.
  - apply Collection_ForEach_eq, rebuild_fresh. unfold GetGenerationId in *. congruence.
  - split; [done | apply for_each_enumerates].
Qed.

(** X11. A view that was in sync with the registry is in sync again after
    its next [ForEach], provided the generation changed fewer than 2^32
    times in between: it is kept when nothing changed and rebuilt
    otherwise. *)
Theorem view_in_sync_below_2_32_changes {S : Type}
    (deref : shared_ptr → DQueryInterface.t)
    (q : shared_ptr → S → EPredicateResult * S) (s : S)
    (view : DInterfaceCollection.t) (self self' : t) (k : Z) :
  reachable self →
  in_sync deref view self →
  changes self k self' →
  k < 2 ^ 32 →
  ∃ view' self'' s' calls,
    DInterfaceCollection.ForEach deref (Some q) view self' s
      = Some (view', self'', s', calls) ∧
    in_sync deref view' self'' ∧
    enumerates calls
      (implementing deref (DInterfaceCollection.TINTERFACE view) (m_objects self'')).
Proof.
  intros Hr [Hgen Hcache] Hch Hk.
  destruct (changes_generation _ _ _ Hr Hch) as (Hk0 & Hr' & Hg & Ho).
  pose proof (invariant_generationId _ (reachable_invariant _ Hr)) as Hrange.
  unfold GetGenerationId in *.
  destruct (decide (k = 0)) as [->|Hne].
  - assert (DInterfaceCollection.m_generationId view = GetGenerationId self') as Hfresh.
    { unfold GetGenerationId. rewrite Hg, Z.add_0_r, Z.mod_small; [done|].
      unfold UINT_MAX in *. lia. }
    do 4 eexists. split; [by apply Collection_ForEach_eq, rebuild_fresh|].
    rewrite (Ho eq_refl), <- Hcache.
    split; [|apply for_each_enumerates]. split; [done|]. by rewrite (Ho eq_refl).
  - assert (DInterfaceCollection.m_generationId view ≠ GetGenerationId self') as Hstale.
    { unfold GetGenerationId. rewrite Hg, Hgen. unfold UINT_MAX in *.
      intros Heq.
      assert ((m_generationId self + k) mod 4294967296 = m_generationId self mod 4294967296)
        as Hmod by (rewrite (Z.mod_small (m_generationId self)) by lia; done).
      apply Z.cong_iff_ex in Hmod as [j Hj]. nia. }
    pose proof (rebuild_stale deref view _ Hstale) as Hreb.
    do 4 eexists. split; [by apply Collection_ForEach_eq|]. simpl.
    split; [by split | apply for_each_enumerates].
Qed.

(** X12. After a [ForEach] a view has the generation of the registry, so a
    second [ForEach] right after it rebuilds nothing: it leaves the view and
    the registry as they are and enumerates the same cache. *)
Theorem view_ForEach_twice {S S2 : Type}
    (deref : shared_ptr → DQueryInterface.t)
    (fn : shared_ptr → S → EPredicateResult * S) (s : S)
    (fn2 : shared_ptr → S2 → EPredicateResult * S2) (s2 : S2)
    (view : DInterfaceCollection.t) (self : t) :
  ∃ view' self' s' calls,
    DInterfaceCollection.ForEach deref (Some fn) view self s
      = Some (view', self', s', calls) ∧
    DInterfaceCollection.m_generationId view' = GetGenerationId self' ∧
    enumerates calls (DInterfaceCollection.m_objects view') ∧
    ∃ s2' calls2,
      DInterfaceCollection.ForEach deref (Some fn2) view' self' s2
        = Some (view', self', s2', calls2) ∧
      enumerates calls2 (DInterfaceCollection.m_objects view').
Proof.
  destruct (decide (DInterfaceCollection.m_generationId view = GetGenerationId self))
    as [Hfresh|Hstale].
  - do 4 eexists. split; [by apply Collection_ForEach_eq, rebuild_fresh|].
    split_and!; [done | apply for_each_enumerates|].
    do 2 eexists. split; [by apply Collection_ForEach_eq, rebuild_fresh|].
    apply for_each_enumerates.
  - do 4 eexists. split; [by apply Collection_ForEach_eq, rebuild_stale|].
    split_and!; [done | apply for_each_enumerates|].
    do 2 eexists. split; [by apply Collection_ForEach_eq, rebuild_fresh|].
    apply for_each_enumerates.
Qed.

(** X13. The scenario of [main], for any objects: when distinct non-empty
    handles are requested on a new registry, the first [ForEach] of a new
    view applies the requests, so that the materialized set is the list of
    requests, and the view caches and enumerates, in the order of the
    requests, the objects that implement its interface. *)
Theorem first_ForEach_of_view_on_new_registry {S : Type}
    (deref : shared_ptr → DQueryInterface.t) (T : type_info)
    (q : shared_ptr → S → EPredicateResult * S) (s : S)
    (objects : list shared_ptr) :
  NoDup objects →
  nullptr ∉ objects →
  ∃ self view' self' s' calls,
    RequestAddObjects objects init = Some self ∧
    DInterfaceCollection.ForEach deref (Some q)
      (DInterfaceCollection.CreateInterfaceCollection T self) self s
      = Some (view', self', s', calls) ∧
    m_objects self' = objects ∧
    m_objectsToAdd self' = [] ∧
    m_generationId self' = match objects with [] => 0 | _ => 1 end ∧
    DInterfaceCollection.m_objects view' = implementing deref T objects ∧
    enumerates calls (implementing deref T objects).
Proof.
  intros Hnd Hnull.
  set (self := Build [] objects [] 0).
  assert (RequestAddObjects objects init = Some self) as Hadd
    by (by rewrite RequestAddObjects_eq).
  assert (DInterfaceCollection.m_generationId
            (DInterfaceCollection.CreateInterfaceCollection T self)
          ≠ GetGenerationId self) as Hstale by done.
  pose proof (rebuild_stale deref _ _ Hstale) as Hreb.
  rewrite drain_eq in Hreb. simpl in Hreb.
  rewrite process_additions_all_new in Hreb by done. simpl in Hreb.
  exists self. do 4 eexists.
  split; [done|]. split; [by apply Collection_ForEach_eq|]. simpl.
  split_and!; [done | done | by destruct objects | done | apply for_each_enumerates].
Qed.

End FurtherViewTheorems.

(** * The classes of the example and the limits of the generation *)

(** X14. The two classes of the example resolve exactly the interfaces they
    derive from, at whatever address the object lives: [DExampleClass]
    resolves [DBarInterface] and [DBazInterface] and nothing else,
    [DOtherExampleClass] these two and [DFooInterface]; this is what the
    assertions of [main] check for its four objects. *)
Theorem example_classes_resolve_their_interfaces (this : pointer) (in_typeId : type_info) :
  (QueryInterfaceByTypeId (Example.DExampleClass this) in_typeId ≠ nullptr ↔
   in_typeId = Example.DBarInterface ∨ in_typeId = Example.DBazInterface) ∧
  (QueryInterfaceByTypeId (Example.DOtherExampleClass this) in_typeId ≠ nullptr ↔
   in_typeId = Example.DFooInterface ∨ in_typeId = Example.DBarInterface
   ∨ in_typeId = Example.DBazInterface) ∧
  HasInterface_T (Example.DExampleClass this) Example.DFooInterface = false ∧
  HasInterface_T (Example.DExampleClass this) Example.DBarInterface = true ∧
  HasInterface_T (Example.DExampleClass this) Example.DBazInterface = true ∧
  HasInterface_T (Example.DOtherExampleClass this) Example.DFooInterface = true ∧
  HasInterface_T (Example.DOtherExampleClass this) Example.DBarInterface = true ∧
  HasInterface_T (Example.DOtherExampleClass this) Example.DBazInterface = true.
Proof.
  assert (∀ n : N, n ≠ 0%N → (this + n)%N ≠ nullptr) as Hoff
    by (unfold nullptr; lia).
  assert (∀ id, QueryInterfaceByTypeId (Example.DExampleClass this) id ≠ nullptr ↔
                id = Example.DBarInterface ∨ id = Example.DBazInterface) as Hexample.
  { intros id. unfold Example.DExampleClass. cbn [QueryInterfaceByTypeId].
    destruct (String.eqb_spec Example.DBarInterface id) as [<-|Hbar];
      [split; [by left | intros _; by apply Hoff]|].
    destruct (String.eqb_spec Example.DBazInterface id) as [<-|Hbaz];
      [split; [by right | intros _; by apply Hoff]|].
    split; [intros H; by destruct H | intros [->| ->]; done]. }
  assert (∀ id, QueryInterfaceByTypeId (Example.DOtherExampleClass this) id ≠ nullptr ↔
                id = Example.DFooInterface ∨ id = Example.DBarInterface
                ∨ id = Example.DBazInterface) as Hother.
  { intros id. unfold Example.DOtherExampleClass. cbn [QueryInterfaceByTypeId].
    destruct (String.eqb_spec Example.DFooInterface id) as [<-|Hfoo];
      [split; [by left | intros _; by apply Hoff]|].
    destruct (String.eqb_spec Example.DBarInterface id) as [<-|Hbar];
      [split; [by right; left | intros _; by apply Hoff]|].
    destruct (String.eqb_spec Example.DBazInterface id) as [<-|Hbaz];
      [split; [by right; right | intros _; by apply Hoff]|].
    split; [intros H; by destruct H | intros [->|[->| ->]]; done]. }
  unfold HasInterface_T, QueryInterface_T.
  split_and!; [apply Hexample | apply Hother | ..].
  - apply negb_false_iff, N.eqb_eq.
    destruct (decide (QueryInterfaceByTypeId (Example.DExampleClass this)
                        Example.DFooInterface = nullptr)) as [|Hne]; [done|].
    apply Hexample in Hne as [?|?]; discriminate.
  - apply negb_true_iff, N.eqb_neq, Hexample. by left.
  - apply negb_true_iff, N.eqb_neq, Hexample. by right.
  - apply negb_true_iff, N.eqb_neq, Hother. by left.
  - apply negb_true_iff, N.eqb_neq, Hother. by right; left.
  - apply negb_true_iff, N.eqb_neq, Hother. by right; right.
Qed.

Section Limits.
Import DObjectRegistry.

(** X16. No empty handle is ever in the materialized set or in the queue of
    additions of a registry, so the closure that rebuilds a view is never
    given one to dereference. *)
Theorem registry_holds_no_empty_handle {S : Type}
    (fn : shared_ptr → S → EPredicateResult * S) (s : S) (self : t) :
  reachable self →
  (nullptr ∉ m_objects self) ∧
  (nullptr ∉ m_objectsToAdd self) ∧
  ∃ self' s' calls,
    ForEach (Some fn) self s = Some (self', s', calls) ∧
    Forall (λ c, arg c ≠ nullptr) calls.
Proof.
  intros Hr. pose proof (reachable_invariant _ Hr) as Hinv.
  split; [apply Hinv|]. split; [apply Hinv|].
  do 3 eexists. split; [apply ForEach_eq|].
  apply Forall_forall. intros c Hc.
  match goal with
  | H : c ∈ (for_each ?h ?f ?l ?s0).2 |- _ =>
      pose proof (for_each_args_prefix h f l s0) as [rest Hp]
  end.
  intros Hnull.
  apply (invariant_objects _ (drain_invariant [m_objectsLock] _ Hinv)).
  rewrite Hp, <- Hnull. apply elem_of_app. left. by apply list_elem_of_fmap_2.
Qed.

(** X17. A removal closure that empties the handle and does not cancel
    makes the request void: the empty handle is queued, and the next
    [ForEach] finds nothing to remove and leaves the set and the generation
    as they are. *)
Theorem removal_closure_emptying_handle {S : Type}
    (fn : shared_ptr → EPredicateResult * shared_ptr)
    (p : shared_ptr → S → EPredicateResult * S) (s : S)
    (self : t) (in_object : shared_ptr) :
  reachable self →
  in_object ≠ nullptr →
  fn in_object = (Ok, nullptr) →
  m_objectsToAdd self = [] →
  m_objectsToRemove self = [] →
  ∃ self1 calls self2 s' calls',
    RequestRemoveObject in_object (Some fn) self = Some (self1, calls) ∧
    m_objectsToRemove self1 = [nullptr] ∧
    ForEach (Some p) self1 s = Some (self2, s', calls') ∧
    m_objects self2 = m_objects self ∧
    m_generationId self2 = m_generationId self.
Proof.
  intros Hr%reachable_invariant Hne Hfn Ha Hrm.
  destruct (RequestRemoveObject_result self in_object (Some fn) Hne)
    as (self1 & calls & Hreq & Ho & Ha1 & Hg & _ & Hq).
  rewrite Hfn, Hrm in Hq. simpl in Hq.
  exists self1, calls. do 3 eexists.
  split; [exact Hreq|]. split; [exact Hq|]. split; [apply ForEach_eq|].
  rewrite drain_eq, Ho, Ha1, Ha, Hq, Hg. simpl.
  assert (find (m_objects self) nullptr = None) as -> by apply find_None, Hr.
  done.
Qed.

Lemma changes_toggle (o : shared_ptr) (n : Z) :
  o ≠ nullptr → 0 ≤ n →
  changes init n (Build (if Z.even n then [] else [o]) [] [] (n mod (UINT_MAX + 1))).
Proof.
  intros Hne Hn. revert n Hn. apply natlike_ind; [apply changes_none|].
  intros n Hn IH.
  assert (0 ≤ n mod (UINT_MAX + 1) ≤ UINT_MAX) as Hrange
    by (pose proof (Z.mod_pos_bound n (UINT_MAX + 1)); unfold UINT_MAX in *; lia).
  rewrite Z.even_succ, <- Z.negb_even.
  replace (Z.succ n mod (UINT_MAX + 1)) with (incr (n mod (UINT_MAX + 1)))
    by (unfold incr; rewrite Zplus_mod_idemp_l; f_equal; lia).
  change (Z.succ n) with (n + 1).
  destruct (Z.even n); simpl.
  - eapply changes_bump;
      [eapply (changes_same _ _ _ (Build [] [o] [] (n mod (UINT_MAX + 1))));
         [exact IH | apply (step_RequestAddObject _ _ o) | reflexivity]
      |eapply (step_ForEach _ _ unit (Some (λ _ u, (Ok, u))) tt)
      |simpl; by apply incr_neq].
    + by apply RequestAddObject_Some.
    + rewrite ForEach_eq, drain_eq. cbn [m_objects m_objectsToAdd m_objectsToRemove m_generationId].
      rewrite process_additions_fresh. cbn [fst snd process_removals].
      reflexivity.
  - eapply changes_bump;
      [eapply (changes_same _ _ _ (Build [o] [] [o] (n mod (UINT_MAX + 1))));
         [exact IH | apply (step_RequestRemoveObject _ _ o None []) | reflexivity]
      |eapply (step_ForEach _ _ unit (Some (λ _ u, (Ok, u))) tt)
      |simpl; by apply incr_neq].
    + unfold RequestRemoveObject, scoped_lock, push_back, to_bool.
      destruct (N.eqb_spec o nullptr) as [|_]; [done|]. reflexivity.
    + rewrite ForEach_eq, drain_eq. cbn [m_objects m_objectsToAdd m_objectsToRemove m_generationId].
      cbn [process_additions fst snd].
      rewrite process_removals_only. cbn [fst snd for_each]. reflexivity.
Qed.

(** X18. The bound of 2^32 is sharp: after exactly 2^32 changes of the
    generation the registry has the generation it started with, and a view
    that was in sync at the start takes itself to be up to date; its
    [ForEach] rebuilds nothing and enumerates nothing, although the
    materialized set now holds an object that implements its interface. *)
Theorem view_misses_2_32_changes {S : Type}
    (deref : shared_ptr → DQueryInterface.t) (T : type_info)
    (q : shared_ptr → S → EPredicateResult * S) (s : S)
    (o1 o2 : shared_ptr) :
  o1 ≠ nullptr → o2 ≠ nullptr → o1 ≠ o2 →
  HasInterface_T (deref o2) T = true →
  let view := DInterfaceCollection.Build T [] 0 in
  let self' := Build [o1; o2] [] [] 0 in
  in_sync deref view init ∧
  changes init (2 ^ 32) self' ∧
  DInterfaceCollection.ForEach deref (Some q) view self' s = Some (view, self', s, []) ∧
  o2 ∈ implementing deref T (m_objects self').
Proof.
  intros H1 H2 Hne Hhas view self'. split_and!.
  - done.
  - pose proof (changes_toggle o1 UINT_MAX H1 ltac:(unfold UINT_MAX; lia)) as Hch.
    change (Z.even UINT_MAX) with false in Hch.
    change (UINT_MAX mod (UINT_MAX + 1)) with UINT_MAX in Hch. cbv iota in Hch.
    change (2 ^ 32) with (UINT_MAX + 1).
    eapply changes_bump;
      [eapply (changes_same _ _ _ (Build [o1] [o2] [] UINT_MAX));
         [exact Hch | apply (step_RequestAddObject _ _ o2) | reflexivity]
      |eapply (step_ForEach _ _ unit (Some (λ _ u, (Ok, u))) tt)
      |done].
    + by apply RequestAddObject_Some.
    + rewrite ForEach_eq, drain_eq. cbn [m_objects m_objectsToAdd m_objectsToRemove m_generationId].
      cbn [process_additions].
      assert (find [o1] o2 = None) as -> by (apply find_None, not_elem_of_cons;
        split; [congruence | apply not_elem_of_nil]).
      reflexivity.
  - by erewrite Collection_ForEach_eq by (by apply rebuild_fresh).
  - unfold implementing. apply list_elem_of_filter. split; [done|].
    apply list_elem_of_further, list_elem_of_here.
Qed.
End Limits.

(** * The further properties on the objects of the example *)

Lemma ForEach_visits_every_object_once_witness :
  let self := DObjectRegistry.Build [] [Example.obj1; Example.obj3] [] 0 in
  DObjectRegistry.reachable self ∧
  (∀ o s, (Example.record o s).1 = Ok) ∧
  ∃ self' s' calls,
    DObjectRegistry.ForEach (Some Example.record) self [] = Some (self', s', calls) ∧
    arg <$> calls = DObjectRegistry.m_objects self' ∧
    NoDup (arg <$> calls).
Proof.
  intros self.
  assert (∀ o s, (Example.record o s).1 = Ok) as Hok by (intros o s; reflexivity).
  split; [apply example_reachable|]. split; [exact Hok|].
  destruct (ForEach_visits_every_object_once Example.record [] self example_reachable Hok)
    as (self' & s' & calls & Hf & Ha & Hnd & _).
  exists self', s', calls. split_and!; [exact Hf | exact Ha | exact Hnd].
Defined.

Lemma structural_change_makes_views_stale_witness :
  let self := DObjectRegistry.Build [] [Example.obj1; Example.obj3] [] 0 in
  let view := DInterfaceCollection.Build Example.DFooInterface [] 0 in
  DObjectRegistry.reachable self ∧
  DInterfaceCollection.m_generationId view = DObjectRegistry.GetGenerationId self ∧
  structural_change self ∧
  ∃ self' s' calls,
    DObjectRegistry.ForEach (Some Example.record) self [] = Some (self', s', calls) ∧
    DInterfaceCollection.m_generationId view ≠ DObjectRegistry.GetGenerationId self' ∧
    ∃ view' s2' calls2,
      DInterfaceCollection.ForEach Example.deref (Some Example.record) view self' []
        = Some (view', self', s2', calls2) ∧
      in_sync Example.deref view' self'.
Proof.
  intros self view.
  assert (structural_change self) as Hc.
  { left. exists Example.obj1. split; [apply list_elem_of_here | apply not_elem_of_nil]. }
  split_and!; [apply example_reachable | reflexivity | exact Hc |].
  exact (structural_change_makes_views_stale Example.deref Example.record []
           Example.record [] view self example_reachable eq_refl Hc).
Defined.

Lemma requests_wait_for_ForEach_of_registry_witness :
  let self := DObjectRegistry.Build [Example.obj1; Example.obj3] [] [] 1 in
  let self' := DObjectRegistry.Build [Example.obj1; Example.obj3] [Example.obj4] [] 1 in
  let view := DInterfaceCollection.Build Example.DFooInterface [Example.obj3] 1 in
  DInterfaceCollection.m_generationId view = DObjectRegistry.GetGenerationId self ∧
  rtc request self self' ∧
  ∃ s' calls,
    DInterfaceCollection.ForEach Example.deref (Some Example.record) view self' []
      = Some (view, self', s', calls) ∧
    DObjectRegistry.m_objects self' = DObjectRegistry.m_objects self ∧
    enumerates calls (DInterfaceCollection.m_objects view).
Proof.
  intros self self' view.
  assert (rtc request self self') as Hreq.
  { apply rtc_once, (request_RequestAddObject _ _ Example.obj4). reflexivity. }
  split_and!; [reflexivity | exact Hreq |].
  exact (requests_wait_for_ForEach_of_registry Example.deref Example.record []
           view self self' eq_refl Hreq).
Defined.

Lemma view_in_sync_below_2_32_changes_witness :
  let self' := DObjectRegistry.Build [Example.obj3] [] [] 1 in
  let view := DInterfaceCollection.Build Example.DFooInterface [] 0 in
  DObjectRegistry.reachable DObjectRegistry.init ∧
  in_sync Example.deref view DObjectRegistry.init ∧
  changes DObjectRegistry.init 1 self' ∧
  1 < 2 ^ 32 ∧
  ∃ view' self'' s' calls,
    DInterfaceCollection.ForEach Example.deref (Some Example.record) view self' []
      = Some (view', self'', s', calls) ∧
    in_sync Example.deref view' self''.
Proof.
  intros self' view.
  assert (DObjectRegistry.reachable DObjectRegistry.init) as Hr by apply rtc_refl.
  assert (in_sync Example.deref view DObjectRegistry.init) as Hsync by done.
  assert (changes DObjectRegistry.init 1 self') as Hch.
  { apply (changes_bump _ 0 (DObjectRegistry.Build [] [Example.obj3] [] 0)).
    - apply (changes_same _ _ DObjectRegistry.init); [apply changes_none | | reflexivity].
      apply (DObjectRegistry.step_RequestAddObject _ _ Example.obj3). reflexivity.
    - by eapply (DObjectRegistry.step_ForEach _ _ unit (Some (λ _ u, (Ok, u))) tt).
    - done. }
  assert (1 < 2 ^ 32) as Hk by done.
  split_and!; [exact Hr | exact Hsync | exact Hch | exact Hk |].
  destruct (view_in_sync_below_2_32_changes Example.deref Example.record []
              view DObjectRegistry.init self' 1 Hr Hsync Hch Hk)
    as (view' & self'' & s' & calls & Hf & Hs & _).
  exists view', self'', s', calls. split; [exact Hf | exact Hs].
Defined.

Lemma first_ForEach_of_view_on_new_registry_witness :
  let objects := [Example.obj1; Example.obj2; Example.obj3; Example.obj4] in
  NoDup objects ∧
  (nullptr ∉ objects) ∧
  ∃ self view' self' s' calls,
    RequestAddObjects objects DObjectRegistry.init = Some self ∧
    DInterfaceCollection.ForEach Example.deref (Some Example.record)
      (DInterfaceCollection.CreateInterfaceCollection Example.DFooInterface self) self []
      = Some (view', self', s', calls) ∧
    DObjectRegistry.m_objects self' = objects ∧
    DInterfaceCollection.m_objects view'
      = implementing Example.deref Example.DFooInterface objects.
Proof.
  intros objects.
  assert (NoDup objects) as Hnd by (apply (bool_decide_unpack _); reflexivity).
  assert (nullptr ∉ objects) as Hnull by (apply (bool_decide_unpack _); reflexivity).
  split; [exact Hnd|]. split; [exact Hnull|].
  destruct (first_ForEach_of_view_on_new_registry Example.deref Example.DFooInterface
              Example.record [] objects Hnd Hnull)
    as (self & view' & self' & s' & calls & Ha & Hf & Ho & _ & _ & Hc & _).
  exists self, view', self', s', calls.
  split_and!; [exact Ha | exact Hf | exact Ho | exact Hc].
Defined.


Lemma registry_holds_no_empty_handle_witness :
  let self := DObjectRegistry.Build [] [Example.obj1; Example.obj3] [] 0 in
  DObjectRegistry.reachable self ∧
  (nullptr ∉ DObjectRegistry.m_objects self) ∧
  (nullptr ∉ DObjectRegistry.m_objectsToAdd self) ∧
  ∃ self' s' calls,
    DObjectRegistry.ForEach (Some Example.record) self [] = Some (self', s', calls) ∧
    Forall (λ c, arg c ≠ nullptr) calls.
Proof.
  intros self. split; [apply example_reachable|].
  exact (registry_holds_no_empty_handle Example.record [] self example_reachable).
Defined.

Lemma removal_closure_emptying_handle_witness :
  let self := DObjectRegistry.Build [Example.obj1; Example.obj3] [] [] 1 in
  let empty := λ o : shared_ptr, (Ok, nullptr) in
  DObjectRegistry.reachable self ∧
  Example.obj1 ≠ nullptr ∧
  empty Example.obj1 = (Ok, nullptr) ∧
  DObjectRegistry.m_objectsToAdd self = [] ∧
  DObjectRegistry.m_objectsToRemove self = [] ∧
  ∃ self1 calls self2 s' calls',
    DObjectRegistry.RequestRemoveObject Example.obj1 (Some empty) self = Some (self1, calls) ∧
    DObjectRegistry.m_objectsToRemove self1 = [nullptr] ∧
    DObjectRegistry.ForEach (Some Example.record) self1 [] = Some (self2, s', calls') ∧
    DObjectRegistry.m_objects self2 = DObjectRegistry.m_objects self ∧
    DObjectRegistry.m_generationId self2 = DObjectRegistry.m_generationId self.
Proof.
  intros self empty.
  assert (Example.obj1 ≠ nullptr) as H1 by done.
  split_and!; [apply example_filled_reachable | exact H1 | reflexivity..|].
  exact (removal_closure_emptying_handle empty Example.record [] self Example.obj1
           example_filled_reachable H1 eq_refl eq_refl eq_refl).
Defined.

Lemma view_misses_2_32_changes_witness :
  let view := DInterfaceCollection.Build Example.DFooInterface [] 0 in
  let self' := DObjectRegistry.Build [Example.obj1; Example.obj3] [] [] 0 in
  Example.obj1 ≠ nullptr ∧ Example.obj3 ≠ nullptr ∧ Example.obj1 ≠ Example.obj3 ∧
  HasInterface_T (Example.deref Example.obj3) Example.DFooInterface = true ∧
  in_sync Example.deref view DObjectRegistry.init ∧
  changes DObjectRegistry.init (2 ^ 32) self' ∧
  DInterfaceCollection.ForEach Example.deref (Some Example.record) view self' []
    = Some (view, self', [], []) ∧
  Example.obj3 ∈ implementing Example.deref Example.DFooInterface
                   (DObjectRegistry.m_objects self').
Proof.
  intros view self'.
  assert (Example.obj1 ≠ nullptr) as H1 by done.
  assert (Example.obj3 ≠ nullptr) as H2 by done.
  assert (Example.obj1 ≠ Example.obj3) as H3 by done.
  assert (HasInterface_T (Example.deref Example.obj3) Example.DFooInterface = true) as H4
    by reflexivity.
  split_and!; [exact H1 | exact H2 | exact H3 | exact H4 | ..];
    apply (view_misses_2_32_changes Example.deref Example.DFooInterface Example.record []
             Example.obj1 Example.obj3 H1 H2 H3 H4).
Defined.
